(** * firebuild-shared: resource streaming, command decoding and the
      session event loop

    A shallow embedding of
      - [build/rootfs/grpc_directory_resource.go]: the directory-walking
        producer [grpcDirectoryResource.WalkResource];
      - the test server and test client of package [server]:
        [testGRPCServerProvider.Start], [testClient.Commands],
        [testClient.NextCommand], [testClient.Resource] and the one-line
        RPC wrappers;
    together with the library functions they call ([crypto/sha256],
    [strings], [path/filepath], [pkg/errors]). *)

From Stdlib Require Import ZArith Strings.String Strings.Ascii Strings.Byte.
From Stdlib Require Import List Bool Arith Lia FinFun.
Import ListNotations.

Set Implicit Arguments.
Set Warnings "-register-all".

(* ================================================================== *)
(** * Bytes *)
(* ================================================================== *)

Definition bytes := list byte.

Definition Z_of_byte (b : byte) : Z := Z.of_N (Byte.to_N b).

Definition byte_of_Z (z : Z) : byte :=
  match Byte.of_N (Z.to_N (z mod 256)) with
  | Some b => b
  | None => x00
  end.

Fixpoint bytes_eqb (a b : bytes) : bool :=
  match a, b with
  | [], [] => true
  | x :: a', y :: b' => Byte.eqb x y && bytes_eqb a' b'
  | _, _ => false
  end.

(* ================================================================== *)
(** * crypto/sha256 *)
(* ================================================================== *)

(** [sha256.Sum256] of the Go standard library, written out after
    FIPS 180-4: 32-bit words are [Z] reduced modulo [2^32]. *)
Module SHA256.

Local Open Scope Z_scope.

Definition w32 (x : Z) : Z := x mod 4294967296.

Definition add32 (x y : Z) : Z := w32 (x + y).

Definition rotr (n x : Z) : Z :=
  Z.lor (Z.shiftr x n) (w32 (Z.shiftl x (32 - n))).

Definition not32 (x : Z) : Z := Z.lxor x 4294967295.

Definition Ch (x y z : Z) : Z := Z.lxor (Z.land x y) (Z.land (not32 x) z).

Definition Maj (x y z : Z) : Z :=
  Z.lxor (Z.lxor (Z.land x y) (Z.land x z)) (Z.land y z).

Definition Sigma0 (x : Z) : Z :=
  Z.lxor (Z.lxor (rotr 2 x) (rotr 13 x)) (rotr 22 x).

Definition Sigma1 (x : Z) : Z :=
  Z.lxor (Z.lxor (rotr 6 x) (rotr 11 x)) (rotr 25 x).

Definition sigma0 (x : Z) : Z :=
  Z.lxor (Z.lxor (rotr 7 x) (rotr 18 x)) (Z.shiftr x 3).

Definition sigma1 (x : Z) : Z :=
  Z.lxor (Z.lxor (rotr 17 x) (rotr 19 x)) (Z.shiftr x 10).

(** The constants are defined as FIPS 180-4 defines them: the first 32
    bits of the fractional parts of the square roots of the first 8
    primes, and of the cube roots of the first 64 primes. *)
Definition is_prime (n : nat) : bool :=
  forallb (fun d => negb (Nat.eqb (Nat.modulo n d) 0)) (seq 2 (n - 2)).

Definition primes : list Z :=
  map Z.of_nat (filter is_prime (seq 2 310)).

(** The largest [r] with [lo <= r < hi] and [r ^ 3 <= x], by bisection. *)
Fixpoint cube_root (steps : nat) (x lo hi : Z) : Z :=
  match steps with
  | O => lo
  | S steps' =>
      let mid := (lo + hi) / 2 in
      if mid * mid * mid <=? x
      then cube_root steps' x mid hi
      else cube_root steps' x lo mid
  end.

Definition init : list Z :=
  Eval vm_compute in
    map (fun p => w32 (Z.sqrt (p * 2 ^ 64))) (firstn 8 primes).

Definition K : list Z :=
  Eval vm_compute in
    map (fun p => w32 (cube_root 40 (p * 2 ^ 96) 0 (2 ^ 36))) primes.

(** Padding: the byte 0x80, zeros up to 56 modulo 64, then the bit
    length as a 64-bit big-endian integer. *)
Definition be_bytes (n : nat) (x : Z) : list Z :=
  map (fun i => Z.shiftr x (8 * Z.of_nat i) mod 256) (rev (seq 0 n)).

Definition pad (msg : list Z) : list Z :=
  let len := Z.of_nat (length msg) in
  let zeros := Z.to_nat ((55 - len) mod 64) in
  msg ++ [128] ++ repeat 0 zeros ++ be_bytes 8 (8 * len).

(** Big-endian 32-bit words of a byte sequence. *)
Fixpoint words (fuel : nat) (bs : list Z) : list Z :=
  match fuel, bs with
  | S fuel', b0 :: b1 :: b2 :: b3 :: rest =>
      (Z.shiftl b0 24 + Z.shiftl b1 16 + Z.shiftl b2 8 + b3)
        :: words fuel' rest
  | _, _ => []
  end.

(** The message schedule, most recent word first: [sched] holds
    [W(t-1); W(t-2); ...]. *)
Fixpoint extend (n : nat) (sched : list Z) : list Z :=
  match n with
  | O => sched
  | S n' =>
      let w2 := nth 1 sched 0 in
      let w7 := nth 6 sched 0 in
      let w15 := nth 14 sched 0 in
      let w16 := nth 15 sched 0 in
      extend n'
        (add32 (add32 (sigma1 w2) w7) (add32 (sigma0 w15) w16) :: sched)
  end.

Definition schedule (block : list Z) : list Z :=
  rev (extend 48 (rev (words 16 block))).

Record regs : Type := Regs
  { ra : Z; rb : Z; rc : Z; rd : Z; re : Z; rf : Z; rg : Z; rh : Z }.

Definition round (s : regs) (kw : Z * Z) : regs :=
  let t1 :=
    add32 (add32 (add32 (rh s) (Sigma1 (re s)))
                 (add32 (Ch (re s) (rf s) (rg s)) (fst kw)))
          (snd kw) in
  let t2 := add32 (Sigma0 (ra s)) (Maj (ra s) (rb s) (rc s)) in
  Regs (add32 t1 t2) (ra s) (rb s) (rc s) (add32 (rd s) t1)
       (re s) (rf s) (rg s).

Definition regs_of (h : list Z) : regs :=
  Regs (nth 0 h 0) (nth 1 h 0) (nth 2 h 0) (nth 3 h 0)
       (nth 4 h 0) (nth 5 h 0) (nth 6 h 0) (nth 7 h 0).

Definition list_of (s : regs) : list Z :=
  [ra s; rb s; rc s; rd s; re s; rf s; rg s; rh s].

Definition compress (h : list Z) (block : list Z) : list Z :=
  let s := fold_left round (combine K (schedule block)) (regs_of h) in
  map (fun p => add32 (fst p) (snd p)) (combine h (list_of s)).

Fixpoint blocks (fuel : nat) (h : list Z) (bs : list Z) : list Z :=
  match fuel with
  | O => h
  | S fuel' =>
      match bs with
      | [] => h
      | _ => blocks fuel' (compress h (firstn 64 bs)) (skipn 64 bs)
      end
  end.

Definition Sum256 (data : bytes) : bytes :=
  let padded := pad (map Z_of_byte data) in
  let h := blocks (length padded) init padded in
  map byte_of_Z (flat_map (be_bytes 4) h).

End SHA256.

(** Hexadecimal rendering, used to state digests readably. *)
Definition hex_digit (n : Z) : ascii :=
  nth (Z.to_nat n)
      (list_ascii_of_string "0123456789abcdef") "0"%char.

Definition hex_of_bytes (bs : bytes) : string :=
  string_of_list_ascii
    (flat_map (fun b => [hex_digit (Z_of_byte b / 16);
                         hex_digit (Z_of_byte b mod 16)]) bs).

Definition bytes_of_string (s : string) : bytes :=
  list_byte_of_string s.

(* ================================================================== *)
(** * Errors *)
(* ================================================================== *)

(** Go [error] values.  A nil [error] is [None : option error]. *)
Inductive error : Type :=
| io_EOF                                    (* io.EOF *)
| os_ErrInvalid                             (* os.ErrInvalid *)
| errorString (msg : string)                (* errors.New, fmt.Errorf *)
| withMessage (cause : error) (msg : string).  (* pkg/errors: Wrap *)

(** [errors.Wrap] of github.com/pkg/errors: "If err is nil, Wrap
    returns nil." *)
Definition errors_Wrap (err : option error) (message : string)
  : option error :=
  match err with
  | None => None
  | Some e => Some (withMessage e message)
  end.

(* ================================================================== *)
(** * grpc/proto: the frames of a resource stream *)
(* ================================================================== *)

Module proto.

Record ResourceChunk_ResourceHeader : Type := {
  SourcePath : string;
  TargetPath : string;
  FileMode : Z;                 (* int64 *)
  IsDir : bool;
  TargetUser : string;
  TargetWorkdir : string;
  Header_Id : string
}.

Record ResourceChunk_ResourceContents : Type := {
  Chunk : bytes;
  Checksum : bytes;
  Chunk_Id : string
}.

Record ResourceChunk_ResourceEof : Type := {
  Eof_Id : string
}.

(** The [oneof payload] of a [ResourceChunk]. *)
Inductive isResourceChunk_Payload : Type :=
| ResourceChunk_Header (Header : ResourceChunk_ResourceHeader)
| ResourceChunk_Chunk (Chunk : ResourceChunk_ResourceContents)
| ResourceChunk_Eof (Eof : ResourceChunk_ResourceEof).

(** [GetPayload] returns nil when no member of the oneof is set. *)
Record ResourceChunk : Type := {
  Payload : option isResourceChunk_Payload
}.

Definition GetPayload (m : ResourceChunk) := Payload m.

End proto.
Import proto.

(** The three frames as the producer builds them. *)
Definition frame_Header (h : ResourceChunk_ResourceHeader) : ResourceChunk :=
  {| Payload := Some (ResourceChunk_Header h) |}.
Definition frame_Chunk (c : ResourceChunk_ResourceContents) : ResourceChunk :=
  {| Payload := Some (ResourceChunk_Chunk c) |}.
Definition frame_Eof (id : string) : ResourceChunk :=
  {| Payload := Some (ResourceChunk_Eof {| Eof_Id := id |}) |}.

(* ================================================================== *)
(** * The resource consumer: testClient.Resource *)
(* ================================================================== *)

Module Consumer.

(** [testResolvedResource]; [targetMode] is an [fs.FileMode], a
    [uint32]. *)
Record testResolvedResource : Type := {
  contents : bytes;
  isDir : bool;
  sourcePath : string;
  targetMode : Z;
  targetPath : string;
  targetUser : string;
  targetWorkdir : string
}.

(** [fs.FileMode(x)] for an [int64] [x]: conversion to [uint32]. *)
Definition fs_FileMode (x : Z) : Z := x mod 4294967296.

(** The goroutine allocates one [testResolvedResource] per header and
    sends pointers to them: the heap is the list of the objects
    allocated so far, a pointer is an index into it, [None] is nil. *)
Definition heap := list testResolvedResource.
Definition ptr := option nat.

(** What travels on [chanResources], a [chan interface{}]. *)
Inductive value : Type :=
| Nil                                  (* the nil interface *)
| Error (e : error)                    (* a non-nil error *)
| Resource (p : ptr).                  (* a *testResolvedResource *)

(** Conversion of an [error] to [interface{}]. *)
Definition value_of_error (e : option error) : value :=
  match e with
  | None => Nil
  | Some e => Error e
  end.

(** One result of [resourceClient.Recv()]. *)
Definition recv : Type := (option ResourceChunk * option error)%type.

Record state : Type := {
  currentResource : ptr;
  objects : heap;
  sent : list value
}.

Definition start : state :=
  {| currentResource := None; objects := []; sent := [] |}.

Inductive control : Type :=
| Continue            (* next iteration *)
| Break               (* left the loop: chanResources gets closed *)
| Panic.              (* nil pointer dereference *)

Definition send (v : value) (s : state) : state :=
  {| currentResource := currentResource s;
     objects := objects s;
     sent := sent s ++ [v] |}.

Definition append_contents (payload : bytes) (r : testResolvedResource)
  : testResolvedResource :=
  {| contents := contents r ++ payload;
     isDir := isDir r;
     sourcePath := sourcePath r;
     targetMode := targetMode r;
     targetPath := targetPath r;
     targetUser := targetUser r;
     targetWorkdir := targetWorkdir r |}.

Fixpoint update (i : nat) (f : testResolvedResource -> testResolvedResource)
         (h : heap) : heap :=
  match h, i with
  | [], _ => []
  | r :: h', O => f r :: h'
  | r :: h', S i' => r :: update i' f h'
  end.

(** One iteration of the [for] loop, given what [Recv] returned. *)
Definition iteration (r : recv) (s : state) : state * control :=
  match r with
  | (None, _) =>
      (* response == nil: CloseSend, break *)
      (s, Break)
  | (Some _, Some err) =>
      (send (value_of_error
               (errors_Wrap (Some err) "failed reading chunk")) s,
       Break)
  | (Some response, None) =>
      match GetPayload response with
      | Some (ResourceChunk_Eof _) =>
          (send (Resource (currentResource s)) s, Continue)
      | Some (ResourceChunk_Chunk c) =>
          if negb (bytes_eqb (SHA256.Sum256 (Chunk c)) (Checksum c))
          then
            (* err is nil here *)
            (send (value_of_error
                     (errors_Wrap None "chunk checksum did not match")) s,
             Break)
          else
            match currentResource s with
            | None => (s, Panic)
            | Some p =>
                ({| currentResource := Some p;
                    objects := update p (append_contents (Chunk c))
                                      (objects s);
                    sent := sent s |},
                 Continue)
            end
      | Some (ResourceChunk_Header h) =>
          ({| currentResource := Some (List.length (objects s));
              objects := objects s ++
                [{| contents := [];
                    isDir := IsDir h;
                    sourcePath := SourcePath h;
                    targetMode := fs_FileMode (FileMode h);
                    targetPath := TargetPath h;
                    targetUser := TargetUser h;
                    targetWorkdir := TargetWorkdir h |}];
              sent := sent s |},
           Continue)
      | None => (s, Continue)
      end
  end.

(** The loop over the results [Recv] delivers; [Continue] means they
    were all consumed and the loop is still running. *)
Fixpoint iterations (stream : list recv) (s : state) : state * control :=
  match stream with
  | [] => (s, Continue)
  | r :: stream' =>
      match iteration r s with
      | (s', Continue) => iterations stream' s'
      | stop => stop
      end
  end.

(** Once the server has ended the stream, [Recv] returns
    [(nil, io.EOF)]. *)
Definition stream_end : recv := (None, Some io_EOF).

(** The goroutine of [Resource]: what was sent on [chanResources], the
    objects the sent pointers refer to, and whether the channel was
    closed ([false]: the goroutine panicked). *)
Record outcome : Type := {
  results : list value;
  store : heap;
  closed : bool
}.

Definition goroutine (stream : list recv) : outcome :=
  match iterations (stream ++ [stream_end]) start with
  | (s, Panic) => {| results := sent s; store := objects s; closed := false |}
  | (s, _) => {| results := sent s; store := objects s; closed := true |}
  end.

(** The object a sent value points to. *)
Definition deref (h : heap) (v : value) : option testResolvedResource :=
  match v with
  | Resource (Some p) => nth_error h p
  | _ => None
  end.

(** Frames that arrive without a transport error. *)
Definition delivered (frames : list ResourceChunk) : list recv :=
  map (fun m => (Some m, None)) frames.

End Consumer.

(* ================================================================== *)
(** * The session orchestrator: testGRPCServerProvider.Start *)
(* ================================================================== *)

Module Session.

(** [testGRPCServerProvider].  A channel that is only ever closed is
    the flag "has been closed"; [chanFailed] is buffered and holds the
    errors sent on it.  [stops] is not a field of the struct: it counts
    the goroutines [go func() { p.srv.Stop() }()] the loop has
    started. *)
Record testGRPCServerProvider : Type := {
  abortError : option error;
  stdErrOutput : list string;
  stdOutOutput : list string;
  success : bool;
  chanAborted : bool;
  chanFailed : list error;
  chanFinished : bool;
  chanReady : bool;
  isAbortedClosed : bool;
  stops : nat
}.

(** [NewTestServer]. *)
Definition NewTestServer : testGRPCServerProvider :=
  {| abortError := None;
     stdErrOutput := [];
     stdOutOutput := [];
     success := false;
     chanAborted := false;
     chanFailed := [];
     chanFinished := false;
     chanReady := false;
     isAbortedClosed := false;
     stops := 0 |}.

(** The case a [select] of [Start] takes, with the value received. *)
Inductive event : Type :=
| ReadyNotify                    (* <-p.srv.ReadyNotify() *)
| FailedNotify (err : error)     (* <-p.srv.FailedNotify() *)
| StoppedNotify                  (* <-p.srv.StoppedNotify() *)
| OnStderr (stdErrLine : string) (* <-p.srv.OnStderr() *)
| OnStdout (stdOutLine : string) (* <-p.srv.OnStdout() *)
| OnAbort (outErr : error)       (* <-p.srv.OnAbort() *)
| OnSuccess                      (* <-p.srv.OnSuccess() *)
| Aborted.                       (* <-p.chanAborted *)

Inductive result : Type :=
| Next (p : testGRPCServerProvider)    (* the loop goes on *)
| Exit (p : testGRPCServerProvider)    (* break out / return *)
| CloseOfClosedChannel                 (* run-time panic *)
| NotReady.                            (* the case cannot be taken *)

Definition is_empty (s : string) : bool :=
  match s with EmptyString => true | _ => false end.

(** The first [select]: ready or failed. *)
Definition Start_select (e : event) (p : testGRPCServerProvider) : result :=
  match e with
  | ReadyNotify =>
      if chanReady p then CloseOfClosedChannel else
      Next {| abortError := abortError p;
              stdErrOutput := stdErrOutput p;
              stdOutOutput := stdOutOutput p;
              success := success p;
              chanAborted := chanAborted p;
              chanFailed := chanFailed p;
              chanFinished := chanFinished p;
              chanReady := true;
              isAbortedClosed := isAbortedClosed p;
              stops := stops p |}
  | FailedNotify err =>
      Exit {| abortError := abortError p;
              stdErrOutput := stdErrOutput p;
              stdOutOutput := stdOutOutput p;
              success := success p;
              chanAborted := chanAborted p;
              chanFailed := chanFailed p ++ [err];
              chanFinished := chanFinished p;
              chanReady := chanReady p;
              isAbortedClosed := isAbortedClosed p;
              stops := stops p |}
  | _ => NotReady
  end.

(** One iteration of the [for { select { ... } }] of the goroutine. *)
Definition loop_select (e : event) (p : testGRPCServerProvider) : result :=
  match e with
  | StoppedNotify =>
      if chanFinished p then CloseOfClosedChannel else
      Exit {| abortError := abortError p;
              stdErrOutput := stdErrOutput p;
              stdOutOutput := stdOutOutput p;
              success := success p;
              chanAborted := chanAborted p;
              chanFailed := chanFailed p;
              chanFinished := true;
              chanReady := chanReady p;
              isAbortedClosed := isAbortedClosed p;
              stops := stops p |}
  | OnStderr stdErrLine =>
      if is_empty stdErrLine then Next p else
      Next {| abortError := abortError p;
              stdErrOutput := stdErrOutput p ++ [stdErrLine];
              stdOutOutput := stdOutOutput p;
              success := success p;
              chanAborted := chanAborted p;
              chanFailed := chanFailed p;
              chanFinished := chanFinished p;
              chanReady := chanReady p;
              isAbortedClosed := isAbortedClosed p;
              stops := stops p |}
  | OnStdout stdOutLine =>
      if is_empty stdOutLine then Next p else
      Next {| abortError := abortError p;
              stdErrOutput := stdErrOutput p;
              stdOutOutput := stdOutOutput p ++ [stdOutLine];
              success := success p;
              chanAborted := chanAborted p;
              chanFailed := chanFailed p;
              chanFinished := chanFinished p;
              chanReady := chanReady p;
              isAbortedClosed := isAbortedClosed p;
              stops := stops p |}
  | OnAbort outErr =>
      (* p.abortError = outErr; close(p.chanAborted) *)
      if chanAborted p then CloseOfClosedChannel else
      Next {| abortError := Some outErr;
              stdErrOutput := stdErrOutput p;
              stdOutOutput := stdOutOutput p;
              success := success p;
              chanAborted := true;
              chanFailed := chanFailed p;
              chanFinished := chanFinished p;
              chanReady := chanReady p;
              isAbortedClosed := isAbortedClosed p;
              stops := stops p |}
  | OnSuccess =>
      if success p then Next p else
      Next {| abortError := abortError p;
              stdErrOutput := stdErrOutput p;
              stdOutOutput := stdOutOutput p;
              success := true;
              chanAborted := chanAborted p;
              chanFailed := chanFailed p;
              chanFinished := chanFinished p;
              chanReady := chanReady p;
              isAbortedClosed := isAbortedClosed p;
              stops := S (stops p) |}
  | Aborted =>
      (* a receive from p.chanAborted succeeds only once it is closed *)
      if negb (chanAborted p) then NotReady else
      if isAbortedClosed p then Next p else
      Next {| abortError := abortError p;
              stdErrOutput := stdErrOutput p;
              stdOutOutput := stdOutOutput p;
              success := success p;
              chanAborted := chanAborted p;
              chanFailed := chanFailed p;
              chanFinished := chanFinished p;
              chanReady := chanReady p;
              isAbortedClosed := true;
              stops := S (stops p) |}
  | ReadyNotify | FailedNotify _ => NotReady
  end.

(** The event loop over the cases taken, in order. *)
Fixpoint loop (events : list event) (p : testGRPCServerProvider) : result :=
  match events with
  | [] => Next p
  | e :: events' =>
      match loop_select e p with
      | Next p' => loop events' p'
      | r => r
      end
  end.

(** The provider when the loop starts: [NewTestServer] with
    [chanReady] closed. *)
Definition ready : testGRPCServerProvider :=
  {| abortError := None;
     stdErrOutput := [];
     stdOutOutput := [];
     success := false;
     chanAborted := false;
     chanFailed := [];
     chanFinished := false;
     chanReady := true;
     isAbortedClosed := false;
     stops := 0 |}.

(** [Start]: the start-up [select], then the loop. *)
Definition Start (first : event) (events : list event) : result :=
  match Start_select first NewTestServer with
  | Next p => loop events p
  | r => r
  end.

(** The two terminal events. *)
Definition is_OnSuccess (e : event) : bool :=
  match e with OnSuccess => true | _ => false end.

Definition is_OnAbort (e : event) : bool :=
  match e with OnAbort _ => true | _ => false end.

(** The accessors. *)
Definition Aborted_ (p : testGRPCServerProvider) := abortError p.
Definition ConsumedStderr (p : testGRPCServerProvider) := stdErrOutput p.
Definition ConsumedStdout (p : testGRPCServerProvider) := stdOutOutput p.
Definition Succeeded (p : testGRPCServerProvider) := success p.

End Session.

(* ================================================================== *)
(** * strings and path/filepath *)
(* ================================================================== *)

Open Scope string_scope.
Open Scope list_scope.

Module strings.

(** [strings.HasPrefix(s, prefix)]. *)
Definition HasPrefix (s prefix : string) : bool := String.prefix prefix s.

(** [s[n:]] *)
Fixpoint drop (n : nat) (s : string) : string :=
  match n, s with
  | O, _ => s
  | S n', String _ s' => drop n' s'
  | S _, EmptyString => EmptyString
  end.

(** [strings.TrimPrefix(s, prefix)]: [s] without the leading [prefix],
    or [s] itself when it does not start with [prefix]. *)
Definition TrimPrefix (s prefix : string) : string :=
  if HasPrefix s prefix then drop (String.length prefix) s else s.

(** [strings.Join(elems, sep)]. *)
Definition Join (elems : list string) (sep : string) : string :=
  String.concat sep elems.

End strings.

(** [path/filepath] on Unix, where the separator is the slash and there
    are no volume names. *)
Module filepath.

Definition Separator : ascii := "/"%char.

Definition IsPathSeparator (c : ascii) : bool := Ascii.eqb c Separator.

(** The elements of a path: what stands between the separators. *)
Fixpoint elements (path : string) : list string :=
  match path with
  | EmptyString => [EmptyString]
  | String c rest =>
      if IsPathSeparator c then EmptyString :: elements rest
      else match elements rest with
           | e :: es => String c e :: es
           | [] => [String c EmptyString]
           end
  end.

(** One element of the path read by [Clean]; [out] holds the elements
    written so far, the last one first.  An empty element and "." are
    dropped; ".." removes the element before it when there is one that
    is not itself "..", is dropped at the root, and is kept
    otherwise. *)
Definition clean_element (rooted : bool) (out : list string) (e : string)
  : list string :=
  if String.eqb e "" then out
  else if String.eqb e "." then out
  else if String.eqb e ".." then
    match out with
    | top :: below =>
        if String.eqb top ".." then e :: out else below
    | [] => if rooted then out else [e]
    end
  else e :: out.

(** [filepath.Clean]: the shortest path name equivalent to [path] by
    purely lexical processing. *)
Definition Clean (path : string) : string :=
  match path with
  | EmptyString => "."
  | String c _ =>
      let rooted := IsPathSeparator c in
      let out := fold_left (clean_element rooted) (elements path) [] in
      match out, rooted with
      | [], false => "."
      | _, false => String.concat "/" (rev out)
      | _, true => String Separator (String.concat "/" (rev out))
      end
  end.

(** [filepath.Join]: the elements from the first non-empty one on,
    joined by the separator and cleaned; the empty string when all are
    empty. *)
Fixpoint Join (elem : list string) : string :=
  match elem with
  | [] => ""
  | e :: rest =>
      if String.eqb e "" then Join rest
      else Clean (strings.Join elem "/")
  end.

End filepath.

(* ================================================================== *)
(** * The file system under the walked root *)
(* ================================================================== *)

Module FS.

(** What an opened regular file still holds: the bytes not yet read,
    and what a read returns once they are used up: [io.EOF], or the
    error of a failing device when [failure] is set. *)
Record os_File : Type := {
  unread : bytes;
  failure : option error
}.

(** A file-system entry, as [filepath.WalkDir] sees it: its name, the
    result of [d.Info()] (the [fs.FileMode], a [uint32]), and for a file
    the result of [os.Open], for a directory the entries [os.ReadDir]
    returned together with its error. *)
Inductive node : Type :=
| File (Name : string) (Info : error + Z) (Open : error + os_File)
| Dir (Name : string) (Info : error + Z)
      (ReadDir : list node) (ReadDir_err : option error).

Definition Name (d : node) : string :=
  match d with
  | File n _ _ => n
  | Dir n _ _ _ => n
  end.

Definition IsDir (d : node) : bool :=
  match d with
  | File _ _ _ => false
  | Dir _ _ _ _ => true
  end.

Definition Info (d : node) : error + Z :=
  match d with
  | File _ i _ => i
  | Dir _ i _ _ => i
  end.

(** [finfo.Mode().Perm()]: the permission bits, [0o777]. *)
Definition Perm (mode : Z) : Z := Z.land mode 511.

(** [os.Open(path)] where the error is dropped: the [*os.File], nil
    when the file could not be opened. *)
Definition Open (d : node) : option os_File :=
  match d with
  | File _ _ (inr f) => Some f
  | _ => None
  end.

(** [reader.Read(buffer)] with [len(buffer) = size]: the bytes read,
    the error, and the file afterwards.  A nil [*os.File] answers
    [os.ErrInvalid]; an empty buffer reads nothing and reports no
    error; a read that fails returns no bytes. *)
Definition Read (reader : option os_File) (size : nat)
  : bytes * option error * option os_File :=
  match reader with
  | None => ([], Some os_ErrInvalid, None)
  | Some f =>
      match size with
      | O => ([], None, reader)
      | S _ =>
          match unread f with
          | [] =>
              ([], Some (match failure f with
                         | Some e => e
                         | None => io_EOF
                         end), reader)
          | _ =>
              (firstn size (unread f), None,
               Some {| unread := skipn size (unread f);
                       failure := failure f |})
          end
      end
  end.

End FS.

(* ================================================================== *)
(** * build/commands: the values the producer and the decoder use *)
(* ================================================================== *)

Module commands.

Record Workdir : Type := { Workdir_Value : string }.
Record User : Type := { User_Value : string }.

End commands.

(* ================================================================== *)
(** * The resource producer: grpcDirectoryResource.WalkResource *)
(* ================================================================== *)

Module Producer.

(** [grpcDirectoryResource], without [contentsReader], which the walk
    does not use. *)
Record grpcDirectoryResource : Type := {
  isDir : bool;
  resolved : string;
  safeBufferSize : Z;
  targetMode : Z;
  sourcePath : string;
  targetPath : string;
  targetWorkdir : commands.Workdir;
  targetUser : commands.User
}.

(** How a call of the walk function, or the walk, ends. *)
Inductive status : Type :=
| Returned (err : option error)   (* it returned [err] *)
| Spinning                        (* the read loop was still running *)
| Panicked.                       (* run-time panic *)

Definition is_EOF (err : option error) : bool :=
  match err with
  | Some io_EOF => true
  | _ => false
  end.

Section Walk.

(** [NewV4 n] is the string of the [n]-th UUID drawn by
    [uuid.Must(uuid.NewV4()).String()]; [fuel] bounds the iterations
    of each read loop. *)
Variable NewV4 : nat -> string.
Variable fuel : nat.
Variable drr : grpcDirectoryResource.

Definition remainingPath (path : string) : string :=
  strings.TrimPrefix (strings.TrimPrefix path (resolved drr)) "/".

Definition header (path : string) (mode : Z) (dir : bool) (id : string)
  : ResourceChunk :=
  frame_Header
    {| SourcePath := filepath.Join [sourcePath drr; remainingPath path];
       TargetPath := filepath.Join [targetPath drr; remainingPath path];
       FileMode := FS.Perm mode;
       proto.IsDir := dir;
       TargetUser := commands.User_Value (targetUser drr);
       TargetWorkdir := commands.Workdir_Value (targetWorkdir drr);
       Header_Id := id |}.

Definition contents (payload : bytes) (id : string) : ResourceChunk :=
  frame_Chunk {| Chunk := payload;
                 Checksum := SHA256.Sum256 payload;
                 Chunk_Id := id |}.

(** The [for] loop that reads the file: the frames sent, and whether
    the loop was left ([false]: it was still running when the fuel
    ran out).  [payload] is a slice of [buffer], which the next read
    fills again; a frame is recorded with the bytes it holds when it is
    sent, which are the bytes its checksum was taken of. *)
Fixpoint read_loop (n : nat) (reader : option FS.os_File) (size : nat)
         (resourceUUID : string) : list ResourceChunk * bool :=
  match n with
  | O => ([], false)
  | S n' =>
      let '(payload, err, reader') := FS.Read reader size in
      if (List.length payload =? 0)%nat && is_EOF err
      then ([frame_Eof resourceUUID], true)
      else
        let '(frames, finished) :=
          read_loop n' reader' size resourceUUID in
        (contents payload resourceUUID :: frames, finished)
  end.

(** The function handed to [filepath.WalkDir], called on [path] with
    the entry [d] (nil when [os.Lstat] of the root failed); [uuids]
    counts the UUIDs drawn so far.  The [err] argument is shadowed at
    once and plays no part. *)
Definition walkFn (path : string) (d : option FS.node) (uuids : nat)
  : list ResourceChunk * nat * status :=
  match d with
  | None => ([], uuids, Panicked)         (* d.Info() on a nil entry *)
  | Some d =>
      match FS.Info d with
      | inl err => ([], uuids, Returned (Some err))
      | inr mode =>
          let resourceUUID := NewV4 uuids in
          if FS.IsDir d then
            ([header path mode true resourceUUID;
              frame_Eof resourceUUID],
             S uuids, Returned None)
          else
            let h := header path mode false resourceUUID in
            if (safeBufferSize drr <? 0)%Z then
              (* make([]byte, n) with n negative *)
              ([h], S uuids, Panicked)
            else
              let '(frames, finished) :=
                read_loop fuel (FS.Open d)
                          (Z.to_nat (safeBufferSize drr)) resourceUUID in
              (h :: frames, S uuids,
               if finished then Returned None else Spinning)
      end
  end.

(** Sequencing: [k] runs when [r] returned nil, and only then. *)
Definition andThen (r : list ResourceChunk * nat * status)
           (k : nat -> list ResourceChunk * nat * status)
  : list ResourceChunk * nat * status :=
  match r with
  | (out, uuids, Returned None) =>
      match k uuids with
      | (out', uuids', st) => (out ++ out', uuids', st)
      end
  | stop => stop
  end.

Definition done (uuids : nat) : list ResourceChunk * nat * status :=
  ([], uuids, Returned None).

(** [walkDir] of [path/filepath]: the entry itself, then, for a
    directory, a second call when [os.ReadDir] reported an error, and
    the entries it returned, each under the joined path.  The first
    error returned ends the walk. *)
Fixpoint walkDir (path : string) (d : FS.node) (uuids : nat)
  : list ResourceChunk * nat * status :=
  andThen (walkFn path (Some d) uuids) (fun uuids =>
    match d with
    | FS.File _ _ _ => done uuids
    | FS.Dir _ _ dirs rderr =>
        andThen
          match rderr with
          | None => done uuids
          | Some _ => walkFn path (Some d) uuids
          end
          ((fix range (dirs : list FS.node) (uuids : nat)
              : list ResourceChunk * nat * status :=
              match dirs with
              | [] => done uuids
              | d1 :: dirs' =>
                  andThen
                    (walkDir (filepath.Join [path; FS.Name d1]) d1 uuids)
                    (range dirs')
              end) dirs)
    end).

(** The loop of [walkDir] over the entries of a directory. *)
Definition range (path : string)
  : list FS.node -> nat -> list ResourceChunk * nat * status :=
  fix range (dirs : list FS.node) (uuids : nat) :=
    match dirs with
    | [] => done uuids
    | d1 :: dirs' =>
        andThen (walkDir (filepath.Join [path; FS.Name d1]) d1 uuids)
                (range dirs')
    end.

(** [filepath.WalkDir(root, fn)]; [root] is what [os.Lstat] finds at
    [drr.resolved], [None] when it fails. *)
Definition WalkDir (root : option FS.node)
  : list ResourceChunk * nat * status :=
  match root with
  | None => walkFn (resolved drr) None 0
  | Some d => walkDir (resolved drr) d 0
  end.

(** The goroutine of [WalkResource]: what it sends on [chanChunks],
    [None] being the nil that ends the stream, sent once [WalkDir]
    has returned, whatever it returned. *)
Definition WalkResource (root : option FS.node)
  : list (option ResourceChunk) * status :=
  match WalkDir root with
  | (out, _, Returned err) => (map Some out ++ [None], Returned err)
  | (out, _, st) => (map Some out, st)
  end.

End Walk.

End Producer.

(* ================================================================== *)
(** * From the producer to the consumer *)
(* ================================================================== *)

(** Modelled from the spec: the server-side handler of [FetchResource]
    that forwards what [WalkResource] sends to the stream is not among the
    sources.  By the spec the transport delivers the frames unchanged and
    in order, and the nil sentinel ends the stream ("terminated by
    StreamEnd"): the client receives every frame sent before the first
    nil, and then the end of the stream. *)
Fixpoint wire (sent : list (option ResourceChunk)) : list Consumer.recv :=
  match sent with
  | Some m :: sent' => (Some m, None) :: wire sent'
  | _ => []
  end.

(* ================================================================== *)
(** * Paths below a clean absolute root *)
(* ================================================================== *)

(** Vocabulary for stating where the walk is: the name of a directory
    entry (not empty, not "." or "..", without a separator), and the
    absolute path made of such names. *)
Module Paths.






End Paths.

(* ================================================================== *)
(** * The stream of a tree, after the spec *)
(* ================================================================== *)

(** The spec describes the stream of a walk entry by entry: a directory
    is a header and an end marker, a file a header, one chunk per read
    that is not empty, and an end marker.  These definitions follow those
    words; the theorems below compare them with [Producer.WalkResource]. *)
Module Stream.
Import FS.

(** No call on the entry or below it fails. *)
Fixpoint healthy (d : node) : bool :=
  match d with
  | File _ (inr _) (inr f) =>
      match failure f with None => true | Some _ => false end
  | Dir _ (inr _) dirs None => forallb healthy dirs
  | _ => false
  end.

Definition mode (d : node) : Z :=
  match Info d with inr m => m | inl _ => 0%Z end.

Definition data (d : node) : bytes :=
  match d with
  | File _ _ (inr f) => unread f
  | _ => []
  end.

(** The entries of a tree in the order of the walk, each with the path
    [filepath.WalkDir] calls the walk function with. *)
Fixpoint visits (path : string) (d : node) : list (string * node) :=
  (path, d) ::
  match d with
  | File _ _ _ => []
  | Dir _ _ dirs _ =>
      flat_map (fun d1 => visits (filepath.Join [path; Name d1]) d1) dirs
  end.

(** The same entries, each with the names that lead to it from the
    root. *)
Fixpoint below (names : list string) (d : node)
  : list (list string * node) :=
  (names, d) ::
  match d with
  | File _ _ _ => []
  | Dir _ _ dirs _ =>
      flat_map (fun d1 => below (names ++ [Name d1]) d1) dirs
  end.


(** The number of bytes of the longest file. *)
Fixpoint longest (d : node) : nat :=
  match d with
  | File _ _ _ => List.length (data d)
  | Dir _ _ dirs _ => fold_right (fun d1 m => Nat.max (longest d1) m) 0 dirs
  end.

(** The successive reads of at most [size] bytes, up to the end of the
    file; [n] bounds their number. *)
Fixpoint reads_upto (n size : nat) (contents : bytes) : list bytes :=
  match n, contents with
  | S n', _ :: _ =>
      firstn size contents :: reads_upto n' size (skipn size contents)
  | _, _ => []
  end.

Definition reads (size : nat) (contents : bytes) : list bytes :=
  reads_upto (List.length contents) size contents.

Section Frames.

Variable NewV4 : nat -> string.
Variable drr : Producer.grpcDirectoryResource.

Definition size : nat := Z.to_nat (Producer.safeBufferSize drr).

(** The frames of one entry: for a directory the header and the end
    marker; for a file the header, a chunk with its checksum for
    every read, and the end marker. *)
Definition entry (path : string) (d : node) (id : string)
  : list ResourceChunk :=
  if IsDir d then
    [Producer.header drr path (mode d) true id; frame_Eof id]
  else
    Producer.header drr path (mode d) false id ::
    map (fun payload =>
           frame_Chunk {| Chunk := payload;
                          Checksum := SHA256.Sum256 payload;
                          Chunk_Id := id |})
        (reads size (data d))
    ++ [frame_Eof id].

(** The frames of the entries, the [i]-th one under the [i]-th
    identifier drawn. *)
Fixpoint entries (uuids : nat) (es : list (string * node))
  : list ResourceChunk :=
  match es with
  | [] => []
  | (path, d) :: es' =>
      entry path d (NewV4 uuids) ++ entries (S uuids) es'
  end.

(** The resource the consumer is to rebuild for an entry. *)
Definition resource (path : string) (d : node)
  : Consumer.testResolvedResource :=
  {| Consumer.contents := data d;
     Consumer.isDir := IsDir d;
     Consumer.sourcePath :=
       filepath.Join [Producer.sourcePath drr;
                      Producer.remainingPath drr path];
     Consumer.targetMode := Consumer.fs_FileMode (Perm (mode d));
     Consumer.targetPath :=
       filepath.Join [Producer.targetPath drr;
                      Producer.remainingPath drr path];
     Consumer.targetUser := commands.User_Value (Producer.targetUser drr);
     Consumer.targetWorkdir :=
       commands.Workdir_Value (Producer.targetWorkdir drr) |}.

End Frames.

(** The consumer once the frames of an entry have arrived: one more
    object, and a pointer to it sent. *)
Definition arrived (drr : Producer.grpcDirectoryResource)
           (s : Consumer.state) (e : string * node) : Consumer.state :=
  {| Consumer.currentResource := Some (List.length (Consumer.objects s));
     Consumer.objects :=
       Consumer.objects s ++ [resource drr (fst e) (snd e)];
     Consumer.sent :=
       Consumer.sent s ++
       [Consumer.Resource (Some (List.length (Consumer.objects s)))] |}.

(** The frames among what was sent on [chanChunks]. *)
Definition frames (sent : list (option ResourceChunk))
  : list ResourceChunk :=
  flat_map (fun m => match m with Some m => [m] | None => [] end) sent.

(** The kinds of frames. *)
Definition is_Header (m : ResourceChunk) : bool :=
  match Payload m with Some (ResourceChunk_Header _) => true | _ => false end.
Definition is_Chunk (m : ResourceChunk) : bool :=
  match Payload m with Some (ResourceChunk_Chunk _) => true | _ => false end.
Definition is_Eof (m : ResourceChunk) : bool :=
  match Payload m with Some (ResourceChunk_Eof _) => true | _ => false end.


(** The identifiers of the headers of a stream, in order. *)
Definition header_ids (frames : list ResourceChunk) : list string :=
  flat_map (fun m => match Payload m with
                     | Some (ResourceChunk_Header h) => [Header_Id h]
                     | _ => []
                     end) frames.

(** The identifier a frame carries. *)
Definition Id (m : ResourceChunk) : option string :=
  match Payload m with
  | Some (ResourceChunk_Header h) => Some (Header_Id h)
  | Some (ResourceChunk_Chunk c) => Some (Chunk_Id c)
  | Some (ResourceChunk_Eof e) => Some (Eof_Id e)
  | None => None
  end.

Definition option_string_eqb (a b : option string) : bool :=
  match a, b with
  | Some x, Some y => String.eqb x y
  | None, None => true
  | _, _ => false
  end.

(** Every chunk and end marker carries the identifier of the header
    that precedes it most closely; [open] is the identifier of the
    header seen last. *)
Fixpoint ids_follow (open : option string) (frames : list ResourceChunk)
  : bool :=
  match frames with
  | [] => true
  | m :: frames' =>
      if is_Header m then ids_follow (Id m) frames'
      else option_string_eqb (Id m) open && ids_follow open frames'
  end.

(** A frame with its identifier replaced. *)
Definition with_Id (f : string -> string) (m : ResourceChunk)
  : ResourceChunk :=
  match Payload m with
  | Some (ResourceChunk_Header h) =>
      frame_Header {| SourcePath := SourcePath h;
                      TargetPath := TargetPath h;
                      FileMode := FileMode h;
                      proto.IsDir := proto.IsDir h;
                      TargetUser := TargetUser h;
                      TargetWorkdir := TargetWorkdir h;
                      Header_Id := f (Header_Id h) |}
  | Some (ResourceChunk_Chunk c) =>
      frame_Chunk {| Chunk := Chunk c;
                     Checksum := Checksum c;
                     Chunk_Id := f (Chunk_Id c) |}
  | Some (ResourceChunk_Eof e) => frame_Eof (f (Eof_Id e))
  | None => m
  end.

(** The same for what [Recv] returns. *)
Definition recv_with_Id (f : string -> string) (r : Consumer.recv)
  : Consumer.recv :=
  (option_map (with_Id f) (fst r), snd r).

End Stream.

(* ================================================================== *)
(** * A small tree, for examples *)
(* ================================================================== *)

Module Sample.
Import FS.

(** A source of identifiers that never repeats itself. *)
Fixpoint uuid (n : nat) : string :=
  match n with
  | O => "u"
  | S n' => String "u"%char (uuid n')
  end.

Definition rooted_at (root : string) (size : Z)
  : Producer.grpcDirectoryResource :=
  {| Producer.isDir := true;
     Producer.resolved := root;
     Producer.safeBufferSize := size;
     Producer.targetMode := 493;
     Producer.sourcePath := "src";
     Producer.targetPath := "/etc/app";
     Producer.targetWorkdir := {| commands.Workdir_Value := "/work" |};
     Producer.targetUser := {| commands.User_Value := "0:0" |} |}.

Definition drr : Producer.grpcDirectoryResource := rooted_at "/tmp/dir" 2.

Definition regular (name contents : string) : node :=
  File name (inr 420%Z)
       (inr {| unread := bytes_of_string contents; failure := None |}).

(** /tmp/dir holding the file a and the directory sub, which holds
    the empty file .b *)
Definition tree : node :=
  Dir "dir" (inr 493%Z)
      [regular "a" "hello"; Dir "sub" (inr 493%Z) [regular ".b" ""] None]
      None.

(** A file that cannot be opened, and one whose device fails after
    three bytes. *)
Definition unreadable : node :=
  File "locked" (inr 256%Z) (inl (errorString "permission denied")).

Definition failing : node :=
  File "disk" (inr 420%Z)
       (inr {| unread := bytes_of_string "abc";
               failure := Some (errorString "input/output error") |}).

(** A directory that [os.ReadDir] lists with an error, and one with an
    entry whose [Info] fails. *)
Definition half_listed : node :=
  Dir "dir" (inr 493%Z) [regular "a" ""]
      (Some (errorString "readdirent: input/output error")).

Definition vanishing : node :=
  Dir "dir" (inr 493%Z)
      [regular "a" "";
       File "b" (inl (errorString "lstat b: no such file or directory"))
            (inl (errorString "open b: no such file or directory"));
       regular "c" ""]
      None.

End Sample.

(* ================================================================== *)
(** * Streams for the examples of the consumer *)
(* ================================================================== *)

Module SampleStream.

Definition hosts (id : string) : ResourceChunk :=
  frame_Header {| SourcePath := "etc/hosts";
                  TargetPath := "/etc/hosts";
                  FileMode := 420;
                  proto.IsDir := false;
                  TargetUser := "0:0";
                  TargetWorkdir := "/work";
                  Header_Id := id |}.

(** A chunk whose payload was altered after its checksum was taken. *)
Definition tampered : ResourceChunk_ResourceContents :=
  {| Chunk := bytes_of_string "127.0.0.1 evil";
     Checksum := SHA256.Sum256 (bytes_of_string "127.0.0.1 host");
     Chunk_Id := "a" |}.

(** A chunk and an end marker under identifiers that are not the
    header's. *)
Definition stray : ResourceChunk_ResourceContents :=
  {| Chunk := bytes_of_string "127.0.0.1 host";
     Checksum := SHA256.Sum256 (bytes_of_string "127.0.0.1 host");
     Chunk_Id := "b" |}.

Definition mixed_ids : list ResourceChunk :=
  [hosts "a"; frame_Chunk stray; frame_Eof "c"].

End SampleStream.

(* ================================================================== *)
(** * The command decoder: testClient.Commands *)
(* ================================================================== *)

Module Decoder.

(** What [json.Unmarshal] stores in an [interface{}]: nil, bool,
    float64 (kept as its text), string, []interface{} and
    map[string]interface{}. *)
Inductive json : Type :=
| JNull
| JBool (b : bool)
| JNumber (text : string)
| JString (s : string)
| JArray (items : list json)
| JObject (fields : list (string * json)).

(** [map[string]interface{}], as the list of its keys and values. *)
Definition rawItem : Type := list (string * json).

(** [rawItem[key]], the comma-ok form. *)
Fixpoint lookup (key : string) (m : rawItem) : option json :=
  match m with
  | [] => None
  | (k, v) :: m' => if String.eqb k key then Some v else lookup key m'
  end.

(** The directives the decoder knows, and the word each starts with. *)
Inductive directive : Type := ADD | COPY | RUN.

Definition keyword (d : directive) : string :=
  match d with
  | ADD => "ADD"
  | COPY => "COPY"
  | RUN => "RUN"
  end.

Section Commands.

(** The typed variants [commands.Add], [commands.Copy] and
    [commands.Run] of package [commands], and the library functions
    the decoder calls: [json.Unmarshal] into a map,
    [mapstructure.Decode] onto each variant, and [fmt.Sprintf("%s", v)]
    for a [v] that is not a string. *)
Variables Add Copy Run : Type.
Variable json_Unmarshal : string -> error + rawItem.
Variable Decode_Add : rawItem -> error + Add.
Variable Decode_Copy : rawItem -> error + Copy.
Variable Decode_Run : rawItem -> error + Run.
Variable Sprintf_other : json -> string.

(** [commands.VMInitSerializableCommand], the interface the three
    variants implement. *)
Inductive VMInitSerializableCommand : Type :=
| IsAdd (command : Add)
| IsCopy (command : Copy)
| IsRun (command : Run).

(** [fmt.Sprintf("%s", v)]: a string is printed as it is. *)
Definition Sprintf_s (v : json) : string :=
  match v with
  | JString s => s
  | _ => Sprintf_other v
  end.

(** The client, and with it what [t.Log] was given: the records
    reported as unexpected. *)
Record testClient : Type := {
  fetchedCommands : list VMInitSerializableCommand;
  logged : list rawItem
}.

Definition fetch (command : VMInitSerializableCommand) (c : testClient)
  : testClient :=
  {| fetchedCommands := fetchedCommands c ++ [command];
     logged := logged c |}.

Definition Log (item : rawItem) (c : testClient) : testClient :=
  {| fetchedCommands := fetchedCommands c;
     logged := logged c ++ [item] |}.

(** The body of the [for] loop for one record: the client afterwards
    and, when the body returns, the error returned. *)
Definition record (cmd : string) (c : testClient)
  : testClient * option error :=
  match json_Unmarshal cmd with
  | inl err => (c, Some err)
  | inr rawItem =>
      match lookup "OriginalCommand" rawItem with
      | Some originalCommandString =>
          if strings.HasPrefix (Sprintf_s originalCommandString) "ADD"
          then
            match Decode_Add rawItem with
            | inl err =>
                (c, errors_Wrap (Some err)
                                "found ADD but did not deserialize")
            | inr command => (fetch (IsAdd command) c, None)
            end
          else if strings.HasPrefix (Sprintf_s originalCommandString)
                                    "COPY"
          then
            match Decode_Copy rawItem with
            | inl err =>
                (c, errors_Wrap (Some err)
                                "found COPY but did not deserialize")
            | inr command => (fetch (IsCopy command) c, None)
            end
          else if strings.HasPrefix (Sprintf_s originalCommandString)
                                    "RUN"
          then
            match Decode_Run rawItem with
            | inl err =>
                (c, errors_Wrap (Some err)
                                "found RUN but did not deserialize")
            | inr command => (fetch (IsRun command) c, None)
            end
          else (Log rawItem c, None)
      | None => (c, None)
      end
  end.

Fixpoint records (cmds : list string) (c : testClient)
  : testClient * option error :=
  match cmds with
  | [] => (c, None)
  | cmd :: cmds' =>
      match record cmd c with
      | (c', None) => records cmds' c'
      | stop => stop
      end
  end.

(** [Commands], given what [c.underlying.Commands] returned. *)
Definition Commands (response : error + list string) (c : testClient)
  : testClient * option error :=
  let c := {| fetchedCommands := []; logged := logged c |} in
  match response with
  | inl err => (c, Some err)
  | inr cmds => records cmds c
  end.

(** [NextCommand]: the first command fetched, removed from the
    queue; nil when the queue is empty. *)
Definition NextCommand (c : testClient)
  : option VMInitSerializableCommand * testClient :=
  match fetchedCommands c with
  | [] => (None, c)
  | result :: rest =>
      (Some result, {| fetchedCommands := rest; logged := logged c |})
  end.

(** *** The batch, after the spec *)

(** The directive a record starts with. *)
Definition starts_with (item : rawItem) (d : directive) : Prop :=
  exists v, lookup "OriginalCommand" item = Some v /\
            strings.HasPrefix (Sprintf_s v) (keyword d) = true.

(** A record that carries its original text, whose directive is none
    of the known ones. *)
Definition unrecognized (cmd : string) (item : rawItem) : Prop :=
  json_Unmarshal cmd = inr item /\
  exists v, lookup "OriginalCommand" item = Some v /\
            forall d, strings.HasPrefix (Sprintf_s v) (keyword d) = false.

Definition Decode (d : directive) (item : rawItem)
  : error + VMInitSerializableCommand :=
  match d with
  | ADD => match Decode_Add item with
           | inl e => inl e | inr x => inr (IsAdd x) end
  | COPY => match Decode_Copy item with
            | inl e => inl e | inr x => inr (IsCopy x) end
  | RUN => match Decode_Run item with
           | inl e => inl e | inr x => inr (IsRun x) end
  end.

(** A record with a known directive whose fields map onto the
    variant, and one whose fields do not. *)
Definition well_formed (cmd : string)
           (command : VMInitSerializableCommand) : Prop :=
  exists item d, json_Unmarshal cmd = inr item /\
                 starts_with item d /\
                 Decode d item = inr command.

Definition malformed (cmd : string) (d : directive) (err : error) : Prop :=
  exists item, json_Unmarshal cmd = inr item /\
               starts_with item d /\
               Decode d item = inl err.

(** A batch without malformed records: the instructions decoded and
    the records skipped, both in the order of the batch. *)
Inductive decodes
  : list string -> list VMInitSerializableCommand -> list rawItem -> Prop :=
| decodes_nil : decodes [] [] []
| decodes_skip cmd item cmds commands skipped :
    unrecognized cmd item ->
    decodes cmds commands skipped ->
    decodes (cmd :: cmds) commands (item :: skipped)
| decodes_fetch cmd command cmds commands skipped :
    well_formed cmd command ->
    decodes cmds commands skipped ->
    decodes (cmd :: cmds) (command :: commands) skipped.

End Commands.

End Decoder.

(* ================================================================== *)
(** * A small batch, for examples *)
(* ================================================================== *)

Module SampleCommands.
Import Decoder.

(** An instruction with the fields the tests give [commands.Copy] and
    [commands.Add], all of them strings here. *)
Record Instruction : Type := {
  OriginalCommand : string;
  Source : string;
  Target : string
}.

(** A field that must hold a string; a key that is absent leaves the
    field empty. *)
Definition field (key : string) (item : rawItem) : error + string :=
  match lookup key item with
  | Some (JString s) => inr s
  | None => inr ""
  | Some _ => inl (errorString (key ++ " expected type string"))
  end.

Definition Decode (item : rawItem) : error + Instruction :=
  match field "OriginalCommand" item with
  | inl e => inl e
  | inr o =>
      match field "Source" item with
      | inl e => inl e
      | inr s =>
          match field "Target" item with
          | inl e => inl e
          | inr t =>
              inr {| OriginalCommand := o; Source := s; Target := t |}
          end
      end
  end.

(** Three records by name, standing for their JSON text. *)
Definition copy_hosts : rawItem :=
  [("OriginalCommand", JString "COPY hosts /etc/hosts");
   ("Source", JString "hosts"); ("Target", JString "/etc/hosts")].

Definition expose : rawItem :=
  [("OriginalCommand", JString "EXPOSE 8080")].

Definition run_broken : rawItem :=
  [("OriginalCommand", JString "RUN make"); ("Target", JNumber "1")].

Definition Unmarshal (cmd : string) : error + rawItem :=
  if String.eqb cmd "copy_hosts" then inr copy_hosts
  else if String.eqb cmd "expose" then inr expose
  else if String.eqb cmd "run_broken" then inr run_broken
  else inl (errorString "invalid character").

Definition Sprintf_other (v : json) : string := "%!s".

Definition client
  : testClient Instruction Instruction Instruction :=
  {| fetchedCommands := []; logged := [] |}.

End SampleCommands.

(* ================================================================== *)
(** * The RPC surface: the service and the client's calls *)
(* ================================================================== *)

Module Service.

(** Modelled from the spec: the service behind the client (package
    [server]'s provider and the gRPC runtime under it) is not among the
    sources.  The spec says of it that cancellation is achieved by
    stopping the transport, "after which every pending or future call
    against it must fail", and that on a transport failure "every call
    surfaces an error to its caller".  So a service is stopped or not,
    and holds what it would answer: the serialized commands, and for a
    path what the stream of a resource delivers. *)
Record RootfsServer : Type := {
  stopped : bool;
  commands_reply : list string;
  resource_reply : string -> list Consumer.recv
}.

(** Modelled from the spec: the error of a call on a stopped
    transport. *)
Definition Unavailable : error :=
  errorString "rpc error: code = Unavailable".

(** Modelled from the spec: a call fails on a stopped service and is
    answered otherwise. *)
Definition invoke {A : Type} (srv : RootfsServer) (reply : A) : error + A :=
  if stopped srv then inl Unavailable else inr reply.

(** Modelled from the spec: [Stop] of the service. *)
Definition Stop (srv : RootfsServer) : RootfsServer :=
  {| stopped := true;
     commands_reply := commands_reply srv;
     resource_reply := resource_reply srv |}.

(** The error of a call whose reply is dropped:
    [_, err := c.underlying.X(...); return err]. *)
Definition err_of {A : Type} (r : error + A) : option error :=
  match r with
  | inl err => Some err
  | inr _ => None
  end.

Section Client.

Variables Add Copy Run : Type.
Variable json_Unmarshal : string -> error + Decoder.rawItem.
Variable Decode_Add : Decoder.rawItem -> error + Add.
Variable Decode_Copy : Decoder.rawItem -> error + Copy.
Variable Decode_Run : Decoder.rawItem -> error + Run.
Variable Sprintf_other : Decoder.json -> string.

(** The methods of [testClient], with the service in the place of
    [c.underlying]. *)
Definition Abort (srv : RootfsServer) (input : error) : option error :=
  err_of (invoke srv tt).

Definition Commands (srv : RootfsServer)
           (c : Decoder.testClient Add Copy Run)
  : Decoder.testClient Add Copy Run * option error :=
  Decoder.Commands json_Unmarshal Decode_Add Decode_Copy Decode_Run
                   Sprintf_other (invoke srv (commands_reply srv)) c.

(** [Resource]: the channel, here with all that its goroutine will
    have done, and the error. *)
Definition Resource (srv : RootfsServer) (input : string)
  : option Consumer.outcome * option error :=
  match invoke srv (resource_reply srv input) with
  | inl err => (None, Some err)
  | inr stream => (Some (Consumer.goroutine stream), None)
  end.

Definition StdErr (srv : RootfsServer) (input : list string)
  : option error :=
  err_of (invoke srv tt).

Definition StdOut (srv : RootfsServer) (input : list string)
  : option error :=
  err_of (invoke srv tt).

Definition Success (srv : RootfsServer) : option error :=
  err_of (invoke srv tt).

(** Modelled from the spec: [Ping], which the tests call and the
    client at hand does not define: the liveness probe, a call whose
    reply is dropped like the others. *)
Definition Ping (srv : RootfsServer) : option error :=
  err_of (invoke srv tt).

End Client.

End Service.

(* ================================================================== *)
(** * What the event loop has seen *)
(* ================================================================== *)

Module SessionTrace.
Import Session.

(** The events the loop gets to process: those before the first
    [StoppedNotify]. *)
Fixpoint before_stop (events : list event) : list event :=
  match events with
  | [] => []
  | StoppedNotify :: _ => []
  | e :: events' => e :: before_stop events'
  end.

Definition stdout_lines (events : list event) : list string :=
  flat_map (fun e => match e with OnStdout l => [l] | _ => [] end) events.

Definition stderr_lines (events : list event) : list string :=
  flat_map (fun e => match e with OnStderr l => [l] | _ => [] end) events.

Definition non_empty (lines : list string) : list string :=
  filter (fun l => negb (is_empty l)) lines.

(** The provider once [chanFinished] is closed. *)
Definition finished (p : testGRPCServerProvider) : testGRPCServerProvider :=
  {| abortError := abortError p;
     stdErrOutput := stdErrOutput p;
     stdOutOutput := stdOutOutput p;
     success := success p;
     chanAborted := chanAborted p;
     chanFailed := chanFailed p;
     chanFinished := true;
     chanReady := chanReady p;
     isAbortedClosed := isAbortedClosed p;
     stops := stops p |}.

End SessionTrace.

(* ================================================================== *)
(** * Draining the queue of commands *)
(* ================================================================== *)

Module Queue.
Import Decoder.

Section Drain.

Variables Add Copy Run : Type.

(** [n] calls of [NextCommand] in a row: what they returned, and the
    client afterwards. *)
Fixpoint drain (n : nat) (c : testClient Add Copy Run)
  : list (option (VMInitSerializableCommand Add Copy Run))
    * testClient Add Copy Run :=
  match n with
  | O => ([], c)
  | S n' =>
      let (result, c') := NextCommand c in
      let (results, c'') := drain n' c' in
      (result :: results, c'')
  end.

End Drain.

(** More records by name: one whose text goes on after the keyword
    without a space, one without its original text. *)
Definition address : rawItem :=
  [("OriginalCommand", JString "ADDRESS 10.0.0.1");
   ("Target", JString "/etc/address")].

Definition untitled : rawItem :=
  [("Source", JString "hosts"); ("Target", JString "/etc/hosts")].

Definition Unmarshal (cmd : string) : error + rawItem :=
  if String.eqb cmd "address" then inr address
  else if String.eqb cmd "untitled" then inr untitled
  else SampleCommands.Unmarshal cmd.

End Queue.

(* ================================================================== *)
(** * Streams the consumer takes to the end *)
(* ================================================================== *)

Module Accept.
Import Consumer.

(** A stream in which every chunk and every end marker finds an entry
    open ([open]: a header came before) and every chunk carries the hash
    of its payload. *)
Fixpoint well_formed (open : bool) (frames : list ResourceChunk) : bool :=
  match frames with
  | [] => true
  | m :: frames' =>
      match Payload m with
      | Some (ResourceChunk_Header _) => well_formed true frames'
      | Some (ResourceChunk_Chunk c) =>
          open && bytes_eqb (SHA256.Sum256 (Chunk c)) (Checksum c)
          && well_formed open frames'
      | Some (ResourceChunk_Eof _) => open && well_formed open frames'
      | None => well_formed open frames'
      end
  end.

(** A value sent that is a pointer to one of the first [n] objects. *)
Definition is_pointer (n : nat) (v : value) : Prop :=
  exists p, v = Resource (Some p) /\ p < n.

Definition is_open (s : state) : bool :=
  match currentResource s with Some _ => true | None => false end.

End Accept.

(* ================================================================== *)
(** * What a walk has sent *)
(* ================================================================== *)

Module Walked.

(** The payloads of the chunks of a stream, in order. *)
Definition payloads (frames : list ResourceChunk) : list bytes :=
  flat_map (fun m => match Payload m with
                     | Some (ResourceChunk_Chunk c) => [Chunk c]
                     | _ => []
                     end) frames.

(** A chunk no longer than [size] that carries the hash of its
    payload. *)
Definition chunk_within (size : nat) (m : ResourceChunk) : Prop :=
  match Payload m with
  | Some (ResourceChunk_Chunk c) =>
      List.length (Chunk c) <= size /\
      Checksum c = SHA256.Sum256 (Chunk c)
  | _ => True
  end.

(** The headers of [r] carry the identifiers drawn from the [u]-th on,
    one each, and [r] leaves the count where the next one is drawn. *)
Definition counted (NewV4 : nat -> string) (u : nat)
           (r : list ResourceChunk * nat * Producer.status) : Prop :=
  u <= snd (fst r) /\
  Stream.header_ids (fst (fst r)) =
    map NewV4 (seq u (snd (fst r) - u)).

(** The resource with another target mode and directory flag. *)
Definition with_mode (drr : Producer.grpcDirectoryResource)
           (dir : bool) (mode : Z) : Producer.grpcDirectoryResource :=
  {| Producer.isDir := dir;
     Producer.resolved := Producer.resolved drr;
     Producer.safeBufferSize := Producer.safeBufferSize drr;
     Producer.targetMode := mode;
     Producer.sourcePath := Producer.sourcePath drr;
     Producer.targetPath := Producer.targetPath drr;
     Producer.targetWorkdir := Producer.targetWorkdir drr;
     Producer.targetUser := Producer.targetUser drr |}.

(** [filepath.Join(prefix, "")]: the prefix cleaned, and the empty
    string for no prefix. *)
Definition cleaned (prefix : string) : string :=
  if String.eqb prefix "" then "" else filepath.Clean prefix.

End Walked.

(* ================================================================== *)
(** * build/resources: the resolved resource, and the constructor *)
(* ================================================================== *)

Module Resources.

(** [resources.ResolvedResource], by the methods the constructor calls
    on it; the interface itself is declared in a package that is not among
    the sources. *)
Class ResolvedResource (R : Type) : Type := {
  ResolvedURIOrPath : R -> string;
  TargetMode : R -> Z;
  SourcePath : R -> string;
  TargetPath : R -> string;
  TargetWorkdir : R -> commands.Workdir;
  TargetUser : R -> commands.User
}.

(** [NewGRPCDirectoryResource]. *)
Definition NewGRPCDirectoryResource {R : Type} `{ResolvedResource R}
           (safeBufferSize : Z) (resource : R)
  : Producer.grpcDirectoryResource :=
  {| Producer.isDir := true;
     Producer.resolved := ResolvedURIOrPath resource;
     Producer.safeBufferSize := safeBufferSize;
     Producer.targetMode := TargetMode resource;
     Producer.sourcePath := SourcePath resource;
     Producer.targetPath := TargetPath resource;
     Producer.targetWorkdir := TargetWorkdir resource;
     Producer.targetUser := TargetUser resource |}.

(** The methods of [testResolvedResource] that make it a resolved
    resource. *)
#[global] Instance testResolvedResource_ResolvedResource
  : ResolvedResource Consumer.testResolvedResource :=
  {| ResolvedURIOrPath := fun r => ("grpc://" ++ Consumer.sourcePath r)%string;
     TargetMode := Consumer.targetMode;
     SourcePath := Consumer.sourcePath;
     TargetPath := Consumer.targetPath;
     TargetWorkdir :=
       fun r => {| commands.Workdir_Value := Consumer.targetWorkdir r |};
     TargetUser :=
       fun r => {| commands.User_Value := Consumer.targetUser r |} |}.

End Resources.

(* ================================================================== *)
(** * Starting the test server, and the contents of the large file *)
(* ================================================================== *)

Module Startup.
Import Session.

(** The cases of the [select] of [MustStartTestGRPCServer] that can be
    taken: a receive from [FailedNotify()], which holds the errors sent on
    [chanFailed], and a receive from [ReadyNotify()], possible once
    [chanReady] is closed. *)
Inductive started : Type :=
| startErr (err : error)
| startReady.

Definition MustStart_select (p : testGRPCServerProvider) : list started :=
  match chanFailed p with
  | err :: _ => [startErr err]
  | [] => []
  end ++ if chanReady p then [startReady] else [].

End Startup.

Module TestData.

Definition alphanum : string :=
  "0123456789ABCDEFGHIJKLMNOPQRSTUVWXYZabcdefghijklmnopqrstuvwxyz".

(** [s[i]] for a string [s]: the byte at [i]; out of range it panics,
    which is [None]. *)
Definition index (s : string) (i : nat) : option byte :=
  nth_error (list_byte_of_string s) i.

(** [b % byte(len(alphanum))]. *)
Definition remainder (b : byte) : nat :=
  Nat.modulo (N.to_nat (Byte.to_N b))
             (Nat.modulo (String.length alphanum) 256).

(** The loop [for i, b := range bs { bs[i] = alphanum[...] }]. *)
Fixpoint replace (bs : bytes) : option bytes :=
  match bs with
  | [] => Some []
  | b :: bs' =>
      match index alphanum (remainder b) with
      | None => None
      | Some x =>
          match replace bs' with
          | None => None
          | Some out => Some (x :: out)
          end
      end
  end.

(** [getLargeFileContent], given the bytes [rand.Read] has put into the
    slice of [n] bytes. *)
Definition getLargeFileContent (random : bytes) : option bytes :=
  replace random.

End TestData.

(* ================================================================== *)
(** * Properties *)
(* ================================================================== *)

(** ** Test vectors of SHA-256 and byte equality *)

Example Sum256_empty :
  hex_of_bytes (SHA256.Sum256 []) =
  "e3b0c44298fc1c149afbf4c8996fb92427ae41e4649b934ca495991b7852b855"%string.
Proof. vm_compute. reflexivity. Qed.

Example Sum256_abc :
  hex_of_bytes (SHA256.Sum256 (bytes_of_string "abc")) =
  "ba7816bf8f01cfea414140de5dae2223b00361a396177a9cb410ff61f20015ad"%string.
Proof. vm_compute. reflexivity. Qed.

Example Sum256_two_blocks :
  hex_of_bytes (SHA256.Sum256 (repeat "a"%byte 70)) =
  "6bd5e5034855a11241f0dee8fc72850ffd9955b28347a86428b5fa19119f6ad0"%string.
Proof. vm_compute. reflexivity. Qed.

Lemma bytes_eqb_eq (a b : bytes) : bytes_eqb a b = true <-> a = b.
Proof.
  revert b; induction a as [|x a IH]; intros [|y b]; simpl;
    try (split; [discriminate | congruence]); try tauto.
  rewrite andb_true_iff, IH. split.
  - intros [Hx ->]. apply Byte.byte_dec_bl in Hx. now subst.
  - intros E; injection E as -> ->. split; [now apply Byte.byte_dec_lb | easy].
Qed.

Lemma bytes_eqb_refl (a : bytes) : bytes_eqb a a = true.
Proof. now apply bytes_eqb_eq. Qed.

Lemma bytes_eqb_neq (a b : bytes) : bytes_eqb a b = false <-> a <> b.
Proof.
  rewrite <- bytes_eqb_eq. destruct (bytes_eqb a b); split; congruence.
Qed.

(* ================================================================== *)
(** ** The session orchestrator *)
(* ================================================================== *)

Module SessionFacts.
Import Session.

Lemma loop_app (a b : list event) (p : testGRPCServerProvider) :
  loop (a ++ b) p =
  match loop a p with
  | Next p' => loop b p'
  | r => r
  end.
Proof.
  revert p; induction a as [|e a IH]; intros p; simpl; [reflexivity|].
  destruct (loop_select e p); auto.
Qed.

(** What one iteration that goes on can change. *)
Lemma loop_select_Next (e : event) (p p' : testGRPCServerProvider) :
  loop_select e p = Next p' ->
  (chanAborted p = true -> chanAborted p' = true) /\
  (stops p' + Nat.b2n (success p) + Nat.b2n (isAbortedClosed p) =
   stops p + Nat.b2n (success p') + Nat.b2n (isAbortedClosed p')) /\
  (success p' = success p || match e with OnSuccess => true | _ => false end) /\
  (abortError p' =
     match e with OnAbort outErr => Some outErr | _ => abortError p end) /\
  (chanAborted p' =
     chanAborted p || match e with OnAbort _ => true | _ => false end).
Proof.
  destruct e; simpl; try discriminate.
  - destruct (chanFinished p); discriminate.
  - destruct (is_empty stdErrLine); intros H; injection H as <-; simpl;
      repeat split; auto; try lia; now rewrite orb_false_r.
  - destruct (is_empty stdOutLine); intros H; injection H as <-; simpl;
      repeat split; auto; try lia; now rewrite orb_false_r.
  - destruct (chanAborted p) eqn:E; [discriminate|].
    intros H; injection H as <-; simpl.
    repeat split; auto; try lia. now rewrite orb_false_r.
  - destruct (success p) eqn:E; intros H; injection H as <-; simpl;
      rewrite ?E; simpl; repeat split; auto; try lia;
      now rewrite orb_false_r.
  - destruct (chanAborted p) eqn:E; [|discriminate]. simpl.
    destruct (isAbortedClosed p) eqn:E'; intros H; injection H as <-; simpl;
      rewrite ?E, ?E'; simpl; repeat split; auto; try lia;
      now rewrite orb_false_r.
Qed.

(** The number of stop requests is the number of guards that are
    set. *)
Lemma loop_stops (events : list event) (p p' : testGRPCServerProvider) :
  loop events p = Next p' ->
  stops p' + Nat.b2n (success p) + Nat.b2n (isAbortedClosed p) =
  stops p + Nat.b2n (success p') + Nat.b2n (isAbortedClosed p').
Proof.
  revert p; induction events as [|e events IH]; intros p; simpl.
  - intros H; injection H as <-. lia.
  - destruct (loop_select e p) as [q| | |] eqn:E; try discriminate.
    intros H. apply IH in H. apply loop_select_Next in E.
    destruct E as (_ & E & _). lia.
Qed.

Lemma loop_success (events : list event) (p p' : testGRPCServerProvider) :
  loop events p = Next p' ->
  success p' = success p || existsb is_OnSuccess events.
Proof.
  revert p; induction events as [|e events IH]; intros p; simpl.
  - intros H; injection H as <-. now rewrite orb_false_r.
  - destruct (loop_select e p) as [q| | |] eqn:E; try discriminate.
    intros H. apply IH in H. apply loop_select_Next in E.
    destruct E as (_ & _ & E & _). rewrite H, E.
    unfold is_OnSuccess at 2. now rewrite orb_assoc.
Qed.

Lemma loop_chanAborted (events : list event) (p p' : testGRPCServerProvider) :
  loop events p = Next p' ->
  chanAborted p' = chanAborted p || existsb is_OnAbort events.
Proof.
  revert p; induction events as [|e events IH]; intros p; simpl.
  - intros H; injection H as <-. now rewrite orb_false_r.
  - destruct (loop_select e p) as [q| | |] eqn:E; try discriminate.
    intros H. apply IH in H. apply loop_select_Next in E.
    destruct E as (_ & _ & _ & _ & E). rewrite H, E.
    unfold is_OnAbort at 2. now rewrite orb_assoc.
Qed.


Lemma loop_isAbortedClosed (events : list event)
      (p p' : testGRPCServerProvider) :
  loop events p = Next p' ->
  (isAbortedClosed p = true -> chanAborted p = true) ->
  isAbortedClosed p' = true -> chanAborted p' = true.
Proof.
  revert p; induction events as [|e events IH]; intros p; simpl.
  - intros H; injection H as <-. auto.
  - destruct (loop_select e p) as [q| | |] eqn:E; try discriminate.
    intros H Hp. apply (IH q H). clear IH H.
    destruct e; simpl in E; try discriminate.
    + destruct (chanFinished p); discriminate.
    + destruct (is_empty stdErrLine); injection E as <-; auto.
    + destruct (is_empty stdOutLine); injection E as <-; auto.
    + destruct (chanAborted p); [discriminate|]. now injection E as <-.
    + destruct (success p); injection E as <-; auto.
    + destruct (chanAborted p) eqn:Ec; [|discriminate]. simpl in E.
      destruct (isAbortedClosed p); injection E as <-; auto.
Qed.

(** The state in which the loop starts. *)
Lemma Start_ReadyNotify (events : list event) :
  Start ReadyNotify events = loop events ready.
Proof. reflexivity. Qed.




(** C10: the abort case closes [p.chanAborted] whether or not it is
    closed already, so the second abort event the loop receives makes it
    panic: the loop does not survive it, and nothing after it is
    processed. *)
Theorem second_abort_panics
        (events rest : list event) (p : testGRPCServerProvider)
        (outErr : error) :
  Start ReadyNotify events = Next p ->
  existsb is_OnAbort events = true ->
  Start ReadyNotify (events ++ OnAbort outErr :: rest)
    = CloseOfClosedChannel.
Proof.
  rewrite !Start_ReadyNotify. intros H Hex.
  rewrite loop_app, H. simpl.
  rewrite (loop_chanAborted _ _ H), Hex, orb_true_r. reflexivity.
Qed.

Lemma second_abort_panics_witness :
  Start ReadyNotify
        [OnAbort (errorString "first"); Aborted;
         OnAbort (errorString "second"); StoppedNotify]
    = CloseOfClosedChannel.
Proof.
  apply (@second_abort_panics
           [OnAbort (errorString "first"); Aborted] [StoppedNotify]
           _ (errorString "second") eq_refl).
  reflexivity.
Defined.

End SessionFacts.

(* ================================================================== *)
(** ** The resource consumer *)
(* ================================================================== *)

Module ConsumerFacts.
Import Consumer.

Lemma iterations_app (a b : list recv) (s : state) :
  iterations (a ++ b) s =
  match iterations a s with
  | (s', Continue) => iterations b s'
  | stop => stop
  end.
Proof.
  revert s; induction a as [|r a IH]; intros s; simpl; [reflexivity|].
  destruct (iteration r s) as [s' []]; auto.
Qed.

(** A chunk whose checksum does not match, in any state of the loop. *)
Lemma iteration_checksum_mismatch
      (c : ResourceChunk_ResourceContents) (s : state) :
  SHA256.Sum256 (Chunk c) <> Checksum c ->
  iteration (Some (frame_Chunk c), None) s = (send Nil s, Break).
Proof.
  intros H. apply bytes_eqb_neq in H. simpl. now rewrite H.
Qed.

(** A chunk whose checksum matches, while an entry is open. *)
Lemma iteration_checksum_match
      (c : ResourceChunk_ResourceContents) (s : state) (p : nat) :
  SHA256.Sum256 (Chunk c) = Checksum c ->
  currentResource s = Some p ->
  iteration (Some (frame_Chunk c), None) s =
  ({| currentResource := Some p;
      objects := update p (append_contents (Chunk c)) (objects s);
      sent := sent s |}, Continue).
Proof.
  intros H Hp. apply bytes_eqb_eq in H. simpl. now rewrite H, Hp.
Qed.

(** C1: the value sent for a chunk whose checksum does not match is
    [errors.Wrap(err, ...)] with [err] nil, which is nil: the consumer
    sends the nil interface, not an error.  It does stop there (what
    follows the chunk is not read), sends no resource for the entry, and
    closes the channel. *)
Theorem checksum_mismatch_sends_nil
        (pre rest : list recv) (s : state)
        (c : ResourceChunk_ResourceContents) :
  iterations pre start = (s, Continue) ->
  SHA256.Sum256 (Chunk c) <> Checksum c ->
  goroutine (pre ++ (Some (frame_Chunk c), None) :: rest) =
  {| results := sent s ++ [Nil]; store := objects s; closed := true |}.
Proof.
  intros Hpre Hsum. unfold goroutine.
  rewrite <- app_assoc, iterations_app, Hpre. simpl app.
  change (iterations (?r :: ?l) s)
    with (match iteration r s with
          | (s', Continue) => iterations l s'
          | stop => stop
          end).
  now rewrite iteration_checksum_mismatch.
Qed.

Lemma checksum_mismatch_sends_nil_witness :
  goroutine (delivered [SampleStream.hosts "a"]
             ++ (Some (frame_Chunk SampleStream.tampered), None)
             :: delivered [frame_Eof "a"]) =
  {| results := [Nil];
     store := [{| contents := [];
                  isDir := false;
                  sourcePath := "etc/hosts";
                  targetMode := 420;
                  targetPath := "/etc/hosts";
                  targetUser := "0:0";
                  targetWorkdir := "/work" |}];
     closed := true |}.
Proof.
  apply (@checksum_mismatch_sends_nil
           (delivered [SampleStream.hosts "a"])
           (delivered [frame_Eof "a"])
           (fst (iterations (delivered [SampleStream.hosts "a"]) start))
           SampleStream.tampered).
  - reflexivity.
  - vm_compute. discriminate.
Defined.

(** C4, as stated, fails: a chunk and an end marker that carry other
    identifiers than the header are not rejected; the chunk is appended
    to the entry the header opened, and the end marker completes it. *)
Lemma mixed_ids_are_accepted :
  Stream.ids_follow None SampleStream.mixed_ids = false /\
  goroutine (delivered SampleStream.mixed_ids) =
  {| results := [Resource (Some 0)];
     store := [{| contents := bytes_of_string "127.0.0.1 host";
                  isDir := false;
                  sourcePath := "etc/hosts";
                  targetMode := 420;
                  targetPath := "/etc/hosts";
                  targetUser := "0:0";
                  targetWorkdir := "/work" |}];
     closed := true |}.
Proof. split; vm_compute; reflexivity. Qed.

(** The consumer does not look at identifiers. *)
Lemma iteration_with_Id (f : string -> string) (r : recv) (s : state) :
  iteration (Stream.recv_with_Id f r) s = iteration r s.
Proof.
  destruct r as [[[[[h|c|e]|]]|] [err|]]; reflexivity.
Qed.

Lemma iterations_with_Id (f : string -> string) (stream : list recv)
      (s : state) :
  iterations (map (Stream.recv_with_Id f) stream) s = iterations stream s.
Proof.
  revert s; induction stream as [|r stream IH]; intros s;
    cbn [map iterations]; [reflexivity|].
  rewrite iteration_with_Id.
  destruct (iteration r s) as [s' []]; auto.
Qed.

Lemma goroutine_with_Id (f : string -> string) (stream : list recv) :
  goroutine (map (Stream.recv_with_Id f) stream) = goroutine stream.
Proof.
  unfold goroutine.
  change [stream_end] with (map (Stream.recv_with_Id f) [stream_end]).
  now rewrite <- map_app, iterations_with_Id.
Qed.

End ConsumerFacts.

(* ================================================================== *)
(** ** strings and path/filepath *)
(* ================================================================== *)

Module PathFacts.
Import strings filepath Paths.

Lemma HasPrefix_app (p s : string) : HasPrefix (p ++ s)%string p = true.
Proof.
  unfold HasPrefix. induction p as [|c p IH]; simpl.
  - now destruct s.
  - destruct (ascii_dec c c); [exact IH | congruence].
Qed.

Lemma drop_app (p s : string) : drop (String.length p) (p ++ s)%string = s.
Proof. induction p as [|c p IH]; simpl; auto. Qed.

Lemma TrimPrefix_app (p s : string) : TrimPrefix (p ++ s)%string p = s.
Proof. unfold TrimPrefix. now rewrite HasPrefix_app, drop_app. Qed.

Lemma TrimPrefix_self (p : string) : TrimPrefix p p = "".
Proof.
  assert (E : p = (p ++ "")%string) by (induction p; simpl; congruence).
  rewrite E at 1. apply TrimPrefix_app.
Qed.



Lemma append_empty_r (a : string) : (a ++ "")%string = a.
Proof. induction a; simpl; congruence. Qed.


(** *** The elements of a path *)

Lemma elements_not_nil (s : string) : elements s <> [].
Proof.
  destruct s as [|c s]; simpl; [discriminate|].
  destruct (IsPathSeparator c); [discriminate|].
  destruct (elements s); discriminate.
Qed.




(** *** Clean *)






(** *** What remains of a path below the root *)




End PathFacts.

(* ================================================================== *)
(** ** The resource producer *)
(* ================================================================== *)

Module ProducerFacts.
Import FS Producer Stream.

(** Induction on a tree, with the property at hand for the entries of
    a directory. *)
Lemma node_induction (P : node -> Prop) :
  (forall n i o, P (File n i o)) ->
  (forall n i dirs e, Forall P dirs -> P (Dir n i dirs e)) ->
  forall d, P d.
Proof.
  intros HF HD. fix IH 1. intros [n i o | n i dirs e].
  - apply HF.
  - apply HD. induction dirs as [|d dirs IHdirs]; constructor.
    + apply IH.
    + exact IHdirs.
Qed.

Lemma walkDir_File NewV4 fuel drr path n i o uuids :
  walkDir NewV4 fuel drr path (File n i o) uuids =
  andThen (walkFn NewV4 fuel drr path (Some (File n i o)) uuids) done.
Proof. reflexivity. Qed.

Lemma walkDir_Dir NewV4 fuel drr path n i dirs e uuids :
  walkDir NewV4 fuel drr path (Dir n i dirs e) uuids =
  andThen (walkFn NewV4 fuel drr path (Some (Dir n i dirs e)) uuids)
    (fun uuids =>
       andThen
         match e with
         | None => done uuids
         | Some _ => walkFn NewV4 fuel drr path (Some (Dir n i dirs e)) uuids
         end
         (range NewV4 fuel drr path dirs)).
Proof. reflexivity. Qed.

Lemma andThen_done_r r : andThen r done = r.
Proof.
  destruct r as [[out u] [[e|]| |]]; simpl; auto.
  now rewrite app_nil_r.
Qed.

Lemma andThen_done_l u k : andThen (done u) k = k u.
Proof. unfold andThen, done. now destruct (k u) as [[out u'] st]. Qed.

Lemma andThen_Returned out u k :
  andThen (out, u, Returned None) k =
  (out ++ fst (fst (k u)), snd (fst (k u)), snd (k u)).
Proof. unfold andThen. now destruct (k u) as [[out' u'] st]. Qed.

(** *** Reading a file that does not fail *)

Lemma reads_upto_more (n m size : nat) (contents : bytes) :
  0 < size -> List.length contents <= n -> List.length contents <= m ->
  reads_upto n size contents = reads_upto m size contents.
Proof.
  intros Hs. revert m contents.
  induction n as [|n IH]; intros m contents Hn Hm.
  - destruct contents; [now destruct m | cbn [List.length] in Hn; lia].
  - destruct contents as [|b contents]; [now destruct m|].
    cbn [List.length] in Hn, Hm.
    destruct m as [|m]; [lia|].
    cbn [reads_upto]. f_equal.
    assert (Hk : List.length (skipn size (b :: contents))
                 <= List.length contents).
    { rewrite length_skipn. cbn [List.length]. lia. }
    apply IH; lia.
Qed.

Lemma reads_upto_enough (n size : nat) (contents : bytes) :
  0 < size -> List.length contents <= n ->
  reads_upto n size contents = reads size contents.
Proof.
  intros Hs Hn. unfold reads. now apply reads_upto_more.
Qed.

Lemma reads_concat (size : nat) (contents : bytes) :
  0 < size -> concat (reads size contents) = contents.
Proof.
  intros Hs. unfold reads.
  assert (H : forall n c, List.length c <= n ->
                          concat (reads_upto n size c) = c).
  { induction n as [|n IH]; intros c Hn.
    - destruct c; [reflexivity | simpl in Hn; lia].
    - destruct c as [|b c]; [reflexivity|].
      cbn [reads_upto concat]. rewrite IH.
      + apply firstn_skipn.
      + rewrite length_skipn. cbn [List.length] in *. lia. }
  now apply H.
Qed.


Lemma read_loop_healthy (n size : nat) (contents : bytes) (id : string) :
  0 < size -> List.length contents < n ->
  read_loop n (Some {| unread := contents; failure := None |}) size id =
  (map (fun payload => Producer.contents payload id) (reads size contents)
   ++ [frame_Eof id], true).
Proof.
  intros Hs. revert contents.
  induction n as [|n IH]; intros c Hn; [lia|].
  rewrite <- (@reads_upto_enough (S n)) by lia.
  cbn [read_loop]. unfold Read. cbn [unread failure].
  destruct size as [|size']; [lia|].
  destruct c as [|b c]; [reflexivity|].
  cbn [firstn List.length Nat.eqb andb reads_upto map app].
  assert (Hk : List.length (skipn (S size') (b :: c)) < n).
  { rewrite length_skipn. cbn [List.length] in *. lia. }
  rewrite (IH _ Hk).
  rewrite reads_upto_enough by lia. reflexivity.
Qed.

(** *** Walking a tree in which nothing fails *)

Lemma entries_app NewV4 drr (u : nat) (a b : list (string * node)) :
  entries NewV4 drr u (a ++ b) =
  entries NewV4 drr u a ++ entries NewV4 drr (u + List.length a) b.
Proof.
  revert u; induction a as [|[path d] a IH]; intros u; simpl.
  - now rewrite Nat.add_0_r.
  - rewrite IH, <- !app_assoc, <- Nat.add_succ_comm. reflexivity.
Qed.

Lemma walkFn_healthy NewV4 fuel drr path d u :
  healthy d = true ->
  (0 < safeBufferSize drr)%Z ->
  longest d < fuel ->
  walkFn NewV4 fuel drr path (Some d) u =
  (entry drr path d (NewV4 u), S u, Returned None).
Proof.
  intros Hh Hs Hf. unfold walkFn, entry, mode.
  destruct d as [n [err|m] [err'|f] | n [err|m] dirs [err'|]];
    try discriminate; cbn [Info FS.IsDir data FS.Open].
  - simpl in Hh. destruct f as [c [e|]]; [discriminate|].
    destruct (Z.ltb_spec (safeBufferSize drr) 0); [lia|].
    rewrite read_loop_healthy; [reflexivity | unfold size; lia | exact Hf].
  - reflexivity.
Qed.

Lemma longest_In (d : node) (dirs : list node) (fuel : nat) :
  fold_right (fun d1 m => Nat.max (longest d1) m) 0 dirs < fuel ->
  In d dirs -> longest d < fuel.
Proof.
  induction dirs as [|d1 dirs IH]; simpl; [tauto|].
  intros H [->|Hin]; [lia | apply IH; [lia | assumption]].
Qed.

Lemma walkDir_healthy NewV4 fuel drr :
  (0 < safeBufferSize drr)%Z ->
  forall d path u,
    healthy d = true ->
    longest d < fuel ->
    walkDir NewV4 fuel drr path d u =
    (entries NewV4 drr u (visits path d),
     u + List.length (visits path d), Returned None).
Proof.
  intros Hs d. induction d as [n i o | n i dirs e IH] using node_induction;
    intros path u Hh Hf.
  - rewrite walkDir_File, andThen_done_r, walkFn_healthy by assumption.
    simpl. rewrite app_nil_r, Nat.add_1_r. reflexivity.
  - rewrite walkDir_Dir, walkFn_healthy by assumption.
    assert (He : e = None).
    { simpl in Hh. destruct i; [discriminate|]. now destruct e. }
    subst e. rewrite andThen_Returned, andThen_done_l.
    assert (Hdirs : forallb healthy dirs = true).
    { simpl in Hh. now destruct i. }
    assert (R : forall u,
               range NewV4 fuel drr path dirs u =
               (entries NewV4 drr u
                  (flat_map (fun d1 => visits (filepath.Join [path; Name d1]) d1)
                            dirs),
                u + List.length
                      (flat_map
                         (fun d1 => visits (filepath.Join [path; Name d1]) d1)
                         dirs),
                Returned None)).
    { clear Hh. simpl in Hf. revert Hdirs Hf.
      induction IH as [|d1 dirs Hd1 _ IHdirs]; intros Hdirs Hf v.
      - simpl. unfold done. now rewrite Nat.add_0_r.
      - simpl in Hdirs. apply andb_true_iff in Hdirs as [Hh1 Hhs].
        simpl in Hf.
        change (range NewV4 fuel drr path (d1 :: dirs) v)
          with (andThen
                  (walkDir NewV4 fuel drr
                           (filepath.Join [path; Name d1]) d1 v)
                  (range NewV4 fuel drr path dirs)).
        rewrite Hd1 by (assumption || lia).
        rewrite andThen_Returned, IHdirs by (assumption || lia).
        cbn [fst snd flat_map].
        rewrite entries_app, length_app, Nat.add_assoc. reflexivity. }
    rewrite R. cbn [fst snd visits entries].
    cbn [List.length]. rewrite <- Nat.add_succ_comm. reflexivity.
Qed.

Lemma WalkResource_healthy NewV4 fuel drr d :
  healthy d = true ->
  (0 < safeBufferSize drr)%Z ->
  longest d < fuel ->
  WalkResource NewV4 fuel drr (Some d) =
  (map Some (entries NewV4 drr 0 (visits (resolved drr) d)) ++ [None],
   Returned None).
Proof.
  intros Hh Hs Hf. unfold WalkResource, WalkDir.
  now rewrite walkDir_healthy.
Qed.

(** *** Counting the frames of the entries *)










(** *** Reading a file that fails *)

(** A reader that answers a read with no bytes and something else than
    [io.EOF], and stays as it is: the loop sends an empty chunk per
    iteration and is never left. *)
Lemma read_loop_stuck (n size : nat) reader (err : option error)
      (id : string) :
  Read reader size = ([], err, reader) ->
  is_EOF err = false ->
  read_loop n reader size id = (repeat (contents [] id) n, false).
Proof.
  intros HR He. induction n as [|n IH]; [reflexivity|].
  cbn [read_loop]. rewrite HR. cbn [List.length Nat.eqb andb].
  rewrite He, IH. reflexivity.
Qed.

Lemma is_EOF_other (err : error) :
  err <> io_EOF -> is_EOF (Some err) = false.
Proof. destruct err; simpl; congruence. Qed.

Lemma read_loop_failing (n size : nat) (unread : bytes) (err : error)
      (id : string) :
  0 < size -> err <> io_EOF ->
  read_loop (List.length (reads size unread) + n)
            (Some {| FS.unread := unread; failure := Some err |}) size id =
  (map (fun payload => contents payload id) (reads size unread)
   ++ repeat (contents [] id) n, false).
Proof.
  intros Hs He. unfold reads.
  generalize (Nat.le_refl (List.length unread)).
  generalize (List.length unread) at 2 3 4 as k.
  intros k; revert unread.
  induction k as [|k IH]; intros unread Hk.
  - destruct unread; [|simpl in Hk; lia].
    cbn [reads_upto List.length Nat.add map app].
    apply (@read_loop_stuck n size _ (Some err)).
    + destruct size; [lia | reflexivity].
    + now apply is_EOF_other.
  - destruct unread as [|b unread].
    + cbn [reads_upto List.length Nat.add map app].
      apply (@read_loop_stuck n size _ (Some err)).
      * destruct size; [lia | reflexivity].
      * now apply is_EOF_other.
    + cbn [reads_upto List.length Nat.add map app read_loop].
      unfold Read. cbn [FS.unread failure].
      destruct size as [|size']; [lia|].
      cbn [firstn List.length Nat.eqb andb].
      rewrite IH; [reflexivity|].
      rewrite length_skipn. cbn [List.length] in *. lia.
Qed.

(** C5: a file that cannot be opened, or whose reads come to fail,
    does not end the production of its entry.  After the header (and the
    chunks read before the failure) every further iteration of the read
    loop sends one more chunk, with an empty payload; however many
    iterations are granted, the loop is still running, no end marker was
    sent, and the walk function has not returned. *)
Theorem failed_read_keeps_sending_chunks NewV4 fuel drr path name m u :
  (0 < safeBufferSize drr)%Z ->
  (forall err,
      walkFn NewV4 fuel drr path (Some (File name (inr m) (inl err))) u =
      (header drr path m false (NewV4 u)
         :: repeat (contents [] (NewV4 u)) fuel,
       S u, Spinning)) /\
  (forall unread err,
      err <> io_EOF ->
      walkFn NewV4 (List.length (reads (size drr) unread) + fuel) drr path
             (Some (File name (inr m)
                         (inr {| FS.unread := unread;
                                 failure := Some err |}))) u =
      (header drr path m false (NewV4 u)
         :: map (fun payload => contents payload (NewV4 u))
                (reads (size drr) unread)
         ++ repeat (contents [] (NewV4 u)) fuel,
       S u, Spinning)).
Proof.
  intros Hs.
  assert (Hneg : (safeBufferSize drr <? 0)%Z = false)
    by (apply Z.ltb_ge; lia).
  split.
  - intros err. unfold walkFn. cbn [Info FS.IsDir FS.Open].
    rewrite Hneg.
    rewrite (@read_loop_stuck fuel _ None (Some os_ErrInvalid));
      reflexivity.
  - intros unread err He. unfold walkFn. cbn [Info FS.IsDir FS.Open].
    rewrite Hneg.
    fold (size drr). rewrite read_loop_failing;
      [reflexivity | unfold size; lia | exact He].
Qed.

Lemma failed_read_keeps_sending_chunks_witness :
  walkFn Sample.uuid 1000 Sample.drr "/tmp/dir/locked"
         (Some Sample.unreadable) 0 =
  (header Sample.drr "/tmp/dir/locked" 256 false "u"
     :: repeat (contents [] "u") 1000,
   1, Spinning) /\
  walkFn Sample.uuid (2 + 1000) Sample.drr "/tmp/dir/disk"
         (Some Sample.failing) 0 =
  (header Sample.drr "/tmp/dir/disk" 420 false "u"
     :: [contents (bytes_of_string "ab") "u";
         contents (bytes_of_string "c") "u"]
     ++ repeat (contents [] "u") 1000,
   1, Spinning).
Proof.
  assert (H : (0 < safeBufferSize Sample.drr)%Z) by reflexivity.
  split.
  - apply (proj1 (@failed_read_keeps_sending_chunks
                    Sample.uuid 1000 Sample.drr "/tmp/dir/locked"
                    "locked" 256%Z 0 H)).
  - apply (proj2 (@failed_read_keeps_sending_chunks
                    Sample.uuid 1000 Sample.drr "/tmp/dir/disk"
                    "disk" 420%Z 0 H)
                 (bytes_of_string "abc")
                 (errorString "input/output error")).
    discriminate.
Defined.

(** *** Where the walk goes *)



(** *** The frames of a walk come from the entries of the tree *)

Lemma andThen_In r k (m : ResourceChunk) :
  In m (fst (fst (andThen r k))) ->
  In m (fst (fst r)) \/ exists u, In m (fst (fst (k u))).
Proof.
  destruct r as [[out u] [[e|]| |]]; cbn; auto.
  destruct (k u) as [[out' u'] st] eqn:E. cbn.
  intros [H|H]%in_app_iff; [now left|].
  right. exists u. now rewrite E.
Qed.

Lemma walkDir_In NewV4 fuel drr (d : node) :
  forall path u m,
    In m (fst (fst (walkDir NewV4 fuel drr path d u))) ->
    exists p d' k,
      In (p, d') (visits path d) /\
      In m (fst (fst (walkFn NewV4 fuel drr p (Some d') k))).
Proof.
  induction d as [n i o | n i dirs e IH] using node_induction;
    intros path u m.
  - rewrite walkDir_File, andThen_done_r. intros H.
    exists path, (File n i o), u. split; [now left | exact H].
  - rewrite walkDir_Dir.
    intros [H|[u1 [H|[u2 H]]%andThen_In]]%andThen_In.
    + exists path, (Dir n i dirs e), u. split; [now left | exact H].
    + destruct e; [|contradiction].
      exists path, (Dir n i dirs (Some e)), u1. split; [now left | exact H].
    + cbn [visits].
      assert (G : exists p d' k,
                 In (p, d')
                    (flat_map
                       (fun d1 => visits (filepath.Join [path; Name d1]) d1)
                       dirs) /\
                 In m (fst (fst (walkFn NewV4 fuel drr p (Some d') k)))).
      { clear u u1. revert u2 H.
        induction IH as [|d1 dirs Hd1 _ IHdirs]; intros u2 H;
          [contradiction|].
        change (range NewV4 fuel drr path (d1 :: dirs) u2)
          with (andThen
                  (walkDir NewV4 fuel drr
                           (filepath.Join [path; Name d1]) d1 u2)
                  (range NewV4 fuel drr path dirs)) in H.
        apply andThen_In in H as [H|[u3 H]].
        - destruct (Hd1 _ _ _ H) as (p & d' & k & Hin & Hm).
          exists p, d', k. split; [|exact Hm].
          cbn [flat_map]. apply in_app_iff. now left.
        - destruct (IHdirs _ H) as (p & d' & k & Hin & Hm).
          exists p, d', k. split; [|exact Hm].
          cbn [flat_map]. apply in_app_iff. now right. }
      destruct G as (p & d' & k & Hin & Hm).
      exists p, d', k. split; [now right | exact Hm].
Qed.

Lemma read_loop_no_Header (n size : nat) reader (id : string)
      (h : ResourceChunk_ResourceHeader) :
  ~ In (frame_Header h) (fst (read_loop n reader size id)).
Proof.
  revert reader; induction n as [|n IH]; intros reader; [easy|].
  cbn [read_loop].
  destruct (Read reader size) as [[payload err] reader'].
  destruct ((List.length payload =? 0)%nat && is_EOF err).
  - intros [H|[]]. discriminate.
  - specialize (IH reader').
    destruct (read_loop n reader' size id) as [frames finished].
    intros [H|H]; [discriminate | now apply IH].
Qed.

(** The only header the walk function sends is the one of its entry. *)
Lemma walkFn_Header NewV4 fuel drr path (d : node) (u : nat)
      (h : ResourceChunk_ResourceHeader) :
  In (frame_Header h) (fst (fst (walkFn NewV4 fuel drr path (Some d) u))) ->
  frame_Header h = header drr path (mode d) (FS.IsDir d) (NewV4 u).
Proof.
  unfold walkFn, mode. destruct (Info d) as [err|m]; [contradiction|].
  destruct (FS.IsDir d).
  - intros [H|[H|[]]]; [now symmetry | discriminate].
  - destruct (safeBufferSize drr <? 0)%Z.
    + intros [H|[]]. now symmetry.
    + pose proof (@read_loop_no_Header fuel
                    (Z.to_nat (safeBufferSize drr)) (FS.Open d)
                    (NewV4 u) h) as Hno.
      destruct (read_loop fuel (FS.Open d)
                  (Z.to_nat (safeBufferSize drr)) (NewV4 u))
        as [frames finished].
      intros [H|H]; [now symmetry | contradiction].
Qed.

Lemma frames_sent (out : list ResourceChunk) :
  frames (map Some out) = out.
Proof.
  induction out as [|m out IH]; [reflexivity|].
  cbn [map frames flat_map app]. f_equal. exact IH.
Qed.

Lemma WalkResource_frames NewV4 fuel drr root :
  frames (fst (WalkResource NewV4 fuel drr root)) =
  fst (fst (WalkDir NewV4 fuel drr root)).
Proof.
  unfold WalkResource.
  destruct (WalkDir NewV4 fuel drr root) as [[out u] [err| |]];
    cbn [fst]; unfold frames; rewrite ?flat_map_app;
    fold (frames (map Some out)); rewrite frames_sent;
    cbn [flat_map]; rewrite ?app_nil_r; reflexivity.
Qed.



Lemma Sample_uuid_length (n : nat) : String.length (Sample.uuid n) = S n.
Proof. induction n; simpl; congruence. Qed.

Lemma Sample_uuid_injective (i j : nat) :
  Sample.uuid i = Sample.uuid j -> i = j.
Proof.
  intros H. apply (f_equal String.length) in H.
  rewrite !Sample_uuid_length in H. congruence.
Qed.


End ProducerFacts.

(* ================================================================== *)
(** ** From the producer to the consumer *)
(* ================================================================== *)

Module PipelineFacts.
Import Stream.
Import Consumer.

Lemma wire_sent (frames : list ResourceChunk)
      (rest : list (option ResourceChunk)) :
  wire (map Some frames ++ None :: rest) = delivered frames.
Proof.
  induction frames as [|m frames IH]; [reflexivity|].
  cbn [map app wire delivered]. f_equal. exact IH.
Qed.

Lemma update_last (pre : heap) (r : testResolvedResource)
      (f : testResolvedResource -> testResolvedResource) :
  update (List.length pre) f (pre ++ [r]) = pre ++ [f r].
Proof. induction pre as [|x pre IH]; simpl; congruence. Qed.

Lemma append_contents_nil (r : testResolvedResource) :
  append_contents [] r = r.
Proof. destruct r; unfold append_contents; simpl. now rewrite app_nil_r. Qed.

Lemma append_contents_twice (a b : bytes) (r : testResolvedResource) :
  append_contents b (append_contents a r) = append_contents (a ++ b) r.
Proof. unfold append_contents; simpl. now rewrite app_assoc. Qed.

Lemma iterations_cons (r : recv) (stream : list recv) (s : state) :
  iterations (r :: stream) s =
  match iteration r s with
  | (s', Continue) => iterations stream s'
  | stop => stop
  end.
Proof. reflexivity. Qed.

(** Chunks with the checksum of their payload, while an entry is open:
    the payloads are appended to it, in the order of arrival. *)
Lemma iterations_chunks (id : string) (payloads : list bytes)
      (pre : heap) (r : testResolvedResource) (out : list value)
      (rest : list recv) :
  iterations
    (delivered
       (map (fun payload =>
               frame_Chunk {| Chunk := payload;
                              Checksum := SHA256.Sum256 payload;
                              Chunk_Id := id |}) payloads) ++ rest)
    {| currentResource := Some (List.length pre);
       objects := pre ++ [r];
       sent := out |} =
  iterations rest
    {| currentResource := Some (List.length pre);
       objects := pre ++ [append_contents (concat payloads) r];
       sent := out |}.
Proof.
  revert r; induction payloads as [|x payloads IH]; intros r.
  - simpl. now rewrite append_contents_nil.
  - cbn [map delivered app concat]. rewrite iterations_cons.
    rewrite (@ConsumerFacts.iteration_checksum_match _ _ (List.length pre))
      by reflexivity.
    cbn [objects sent Chunk]. rewrite update_last.
    change (map (fun m : ResourceChunk => (Some m, @None error)) ?l)
      with (delivered l).
    rewrite IH, append_contents_twice. reflexivity.
Qed.

(** The frames of one entry arrive. *)
Lemma iterations_entry drr (e : string * FS.node) (id : string)
      (s : state) (rest : list recv) :
  0 < size drr ->
  iterations (delivered (entry drr (fst e) (snd e) id) ++ rest) s =
  iterations rest (arrived drr s e).
Proof.
  intros Hs. destruct e as [path d]. destruct s as [cur objs out].
  unfold entry, arrived. cbn [fst snd objects sent].
  destruct d as [n i o | n i dirs err]; cbn [FS.IsDir].
  - cbn [delivered map app]. rewrite iterations_cons.
    cbn [iteration GetPayload Producer.header frame_Header Payload
         objects sent currentResource].
    rewrite map_app, <- app_assoc.
    change (map (fun m : ResourceChunk => (Some m, @None error)) ?l)
      with (delivered l).
    rewrite iterations_chunks.
    cbn [delivered map app]. rewrite iterations_cons.
    cbn [iteration GetPayload frame_Eof Payload send objects sent
         currentResource].
    unfold append_contents, resource. cbn [contents app].
    rewrite ProducerFacts.reads_concat by assumption.
    reflexivity.
  - reflexivity.
Qed.

Lemma iterations_entries NewV4 drr (es : list (string * FS.node))
      (u : nat) (s : state) (rest : list recv) :
  0 < size drr ->
  iterations (delivered (entries NewV4 drr u es) ++ rest) s =
  iterations rest (fold_left (arrived drr) es s).
Proof.
  intros Hs. revert u s; induction es as [|[path d] es IH]; intros u s.
  - reflexivity.
  - cbn [entries fold_left]. unfold delivered.
    rewrite map_app, <- app_assoc.
    change (map (fun m : ResourceChunk => (Some m, @None error)) ?l)
      with (delivered l).
    rewrite (@iterations_entry drr (path, d)) by assumption.
    apply IH.
Qed.

Lemma arrived_all drr (es : list (string * FS.node)) (s : state) :
  objects (fold_left (arrived drr) es s) =
    objects s ++ map (fun e => resource drr (fst e) (snd e)) es /\
  sent (fold_left (arrived drr) es s) =
    sent s ++ map (fun i => Resource (Some i))
                  (seq (List.length (objects s)) (List.length es)).
Proof.
  revert s; induction es as [|e es IH]; intros s; cbn [fold_left].
  - simpl. now rewrite !app_nil_r.
  - destruct (IH (arrived drr s e)) as [-> ->].
    unfold arrived. cbn [objects sent map List.length seq].
    rewrite <- !app_assoc, length_app, Nat.add_1_r. split; reflexivity.
Qed.

(** What the consumer makes of the stream of entries. *)
Lemma goroutine_entries NewV4 drr (es : list (string * FS.node)) :
  0 < size drr ->
  goroutine (delivered (entries NewV4 drr 0 es)) =
  {| results := map (fun i => Resource (Some i)) (seq 0 (List.length es));
     store := map (fun e => resource drr (fst e) (snd e)) es;
     closed := true |}.
Proof.
  intros Hs. unfold goroutine.
  rewrite iterations_entries by assumption.
  cbn [iterations iteration stream_end].
  destruct (arrived_all drr es start) as [-> ->]. reflexivity.
Qed.

(** C3: a tree in which no call fails, sent with a buffer of positive
    size and received over a transport that delivers the frames as they
    were sent.  The consumer sends one pointer per entry, in the order
    of the walk, and closes the channel; the object behind the pointer
    of an entry holds the header's fields and, as contents, the payloads
    of the entry's chunks one after the other, which are the bytes of the
    file (none for a directory).  Nothing is assumed about the length of
    a file, so a file of 10 MiB is covered. *)
Theorem round_trip NewV4 fuel drr (d : FS.node) :
  healthy d = true ->
  (0 < Producer.safeBufferSize drr)%Z ->
  longest d < fuel ->
  let es := visits (Producer.resolved drr) d in
  let o :=
    goroutine (wire (fst (Producer.WalkResource NewV4 fuel drr (Some d)))) in
  o = {| results := map (fun i => Resource (Some i))
                        (seq 0 (List.length es));
         store := map (fun e => resource drr (fst e) (snd e)) es;
         closed := true |} /\
  map contents (store o) = map (fun e => data (snd e)) es /\
  Forall (fun e => concat (reads (size drr) (data (snd e))) = data (snd e))
         es.
Proof.
  intros Hh Hs Hf es o.
  assert (Hsize : 0 < size drr) by (unfold size; lia).
  assert (Ho : o = {| results := map (fun i => Resource (Some i))
                                     (seq 0 (List.length es));
                      store := map (fun e => resource drr (fst e) (snd e)) es;
                      closed := true |}).
  { unfold o. rewrite ProducerFacts.WalkResource_healthy by assumption.
    cbn [fst]. rewrite wire_sent. now apply goroutine_entries. }
  split; [exact Ho|]. split.
  - rewrite Ho. cbn [store]. rewrite map_map. reflexivity.
  - apply Forall_forall. intros e _.
    now apply ProducerFacts.reads_concat.
Qed.

Lemma round_trip_witness :
  let es := visits "/tmp/dir" Sample.tree in
  let o :=
    goroutine
      (wire (fst (Producer.WalkResource Sample.uuid 6 Sample.drr
                                        (Some Sample.tree)))) in
  o = {| results := map (fun i => Resource (Some i))
                        (seq 0 (List.length es));
         store := map (fun e => resource Sample.drr (fst e) (snd e)) es;
         closed := true |} /\
  map contents (store o) = map (fun e => data (snd e)) es /\
  Forall (fun e => concat (reads 2 (data (snd e))) = data (snd e)) es.
Proof.
  apply (@round_trip Sample.uuid 6 Sample.drr Sample.tree).
  - reflexivity.
  - reflexivity.
  - simpl. lia.
Defined.

(** The large file of the tests: ten mebibytes, whatever they are, sent
    in chunks of any positive size, arrive as they were. *)
Corollary large_file_arrives NewV4 drr (name : string) (m : Z)
          (bs : bytes) :
  Z.of_nat (List.length bs) = (10 * 1024 * 1024)%Z ->
  (0 < Producer.safeBufferSize drr)%Z ->
  let d := FS.File name (inr m)
                   (inr {| FS.unread := bs; FS.failure := None |}) in
  let o :=
    goroutine
      (wire (fst (Producer.WalkResource NewV4 (S (List.length bs)) drr
                                        (Some d)))) in
  results o = [Resource (Some 0)] /\
  map contents (store o) = [bs] /\
  closed o = true.
Proof.
  intros _ Hs d o.
  assert (Hsize : 0 < size drr) by (unfold size; lia).
  unfold o. rewrite ProducerFacts.WalkResource_healthy;
    [|reflexivity | assumption | cbn; lia].
  cbn [fst]. rewrite wire_sent, goroutine_entries by assumption.
  repeat split.
Qed.

(** *** Identifiers *)

Lemma ids_follow_app (open : option string) (a b : list ResourceChunk) :
  ids_follow open a = true ->
  (forall open', ids_follow open' b = true) ->
  ids_follow open (a ++ b) = true.
Proof.
  intros Ha Hb. revert open Ha.
  induction a as [|m a IH]; intros open Ha; cbn [app]; [apply Hb|].
  cbn [ids_follow] in *. destruct (is_Header m); [now apply IH|].
  apply andb_true_iff in Ha as [-> Ha]. now apply IH.
Qed.

Lemma read_loop_ids (n : nat) reader (size : nat) (id : string) :
  ids_follow (Some id) (fst (Producer.read_loop n reader size id)) = true.
Proof.
  revert reader; induction n as [|n IH]; intros reader; [reflexivity|].
  cbn [Producer.read_loop].
  destruct (FS.Read reader size) as [[payload err] reader'].
  destruct ((List.length payload =? 0)%nat && Producer.is_EOF err).
  - cbn. now rewrite String.eqb_refl.
  - specialize (IH reader').
    destruct (Producer.read_loop n reader' size id) as [frames finished].
    cbn in *. now rewrite String.eqb_refl.
Qed.

Lemma walkFn_ids NewV4 fuel drr path d u (open : option string) :
  ids_follow open
    (fst (fst (Producer.walkFn NewV4 fuel drr path d u))) = true.
Proof.
  unfold Producer.walkFn. destruct d as [d|]; [|reflexivity].
  destruct (FS.Info d) as [err|m]; [reflexivity|].
  destruct (FS.IsDir d).
  - cbn. now rewrite String.eqb_refl.
  - destruct (Producer.safeBufferSize drr <? 0)%Z; [reflexivity|].
    pose proof (read_loop_ids fuel (FS.Open d)
                  (Z.to_nat (Producer.safeBufferSize drr)) (NewV4 u)) as H.
    destruct (Producer.read_loop fuel (FS.Open d)
                (Z.to_nat (Producer.safeBufferSize drr)) (NewV4 u))
      as [frames finished].
    exact H.
Qed.

Lemma andThen_ids r k :
  (forall open, ids_follow open (fst (fst r)) = true) ->
  (forall u open, ids_follow open (fst (fst (k u))) = true) ->
  forall open,
    ids_follow open (fst (fst (Producer.andThen r k))) = true.
Proof.
  intros Hr Hk open. destruct r as [[out u] [[e|]| |]]; cbn; try apply Hr.
  specialize (Hk u). destruct (k u) as [[out' u'] st]. cbn in *.
  apply ids_follow_app; [apply Hr | exact Hk].
Qed.

Lemma walkDir_ids NewV4 fuel drr (d : FS.node) :
  forall path u open,
    ids_follow open
      (fst (fst (Producer.walkDir NewV4 fuel drr path d u))) = true.
Proof.
  induction d as [n i o | n i dirs e IH] using ProducerFacts.node_induction;
    intros path u open.
  - rewrite ProducerFacts.walkDir_File, ProducerFacts.andThen_done_r.
    apply walkFn_ids.
  - rewrite ProducerFacts.walkDir_Dir.
    apply andThen_ids; [intros; apply walkFn_ids|].
    intros u1 open1. apply andThen_ids.
    + intros open2. destruct e; [apply walkFn_ids | reflexivity].
    + clear u1 open1. induction IH as [|d1 dirs Hd1 _ IHdirs];
        intros u2 open2; [reflexivity|].
      change (Producer.range NewV4 fuel drr path (d1 :: dirs) u2)
        with (Producer.andThen
                (Producer.walkDir NewV4 fuel drr
                                  (filepath.Join [path; FS.Name d1]) d1 u2)
                (Producer.range NewV4 fuel drr path dirs)).
      apply andThen_ids; [intros; apply Hd1 | exact IHdirs].
Qed.

Lemma WalkResource_ids NewV4 fuel drr root :
  ids_follow None
    (frames (fst (Producer.WalkResource NewV4 fuel drr root))) = true.
Proof.
  rewrite ProducerFacts.WalkResource_frames.
  unfold Producer.WalkDir.
  destruct root; [apply walkDir_ids | apply walkFn_ids].
Qed.

(** C4, amended: the identifiers are kept in order by the producer
    and not read by the consumer.  In whatever [WalkResource] sends, for
    any tree and however far the walk gets, every chunk and every end
    marker carries the identifier of the header sent last before it.  The
    consumer applies a chunk or an end marker to the entry that is open
    whatever identifier it carries: replacing the identifiers of a stream
    by any others does not change what the consumer sends, stores or
    whether it closes its channel. *)
Theorem ids_kept_by_producer_ignored_by_consumer :
  (forall NewV4 fuel drr root,
      ids_follow None
        (frames (fst (Producer.WalkResource NewV4 fuel drr root))) = true) /\
  (forall (f : string -> string) (stream : list recv),
      goroutine (map (recv_with_Id f) stream) = goroutine stream).
Proof.
  split.
  - exact WalkResource_ids.
  - exact ConsumerFacts.goroutine_with_Id.
Qed.

End PipelineFacts.

(* ================================================================== *)
(** ** The command decoder *)
(* ================================================================== *)

Module DecoderFacts.
Import Decoder.

Lemma HasPrefix_head (s : string) (c : ascii) (p : string) :
  strings.HasPrefix s (String c p) = true ->
  exists s', s = String c s'.
Proof.
  unfold strings.HasPrefix. destruct s as [|c' s]; [discriminate|].
  change (String.prefix (String c p) (String c' s))
    with (if ascii_dec c c' then String.prefix p s else false).
  destruct (ascii_dec c c') as [->|]; [eauto | discriminate].
Qed.

(** No text starts with two of the keywords. *)
Lemma keyword_exclusive (s : string) (d d' : directive) :
  strings.HasPrefix s (keyword d) = true ->
  d <> d' ->
  strings.HasPrefix s (keyword d') = false.
Proof.
  intros H Hne.
  destruct (strings.HasPrefix s (keyword d')) eqn:H'; [|reflexivity].
  exfalso.
  destruct d, d'; try congruence;
    apply HasPrefix_head in H as [s1 ->];
    apply HasPrefix_head in H' as [s2 E]; discriminate.
Qed.

Section Commands.

Variables Add Copy Run : Type.
Variable json_Unmarshal : string -> error + rawItem.
Variable Decode_Add : rawItem -> error + Add.
Variable Decode_Copy : rawItem -> error + Copy.
Variable Decode_Run : rawItem -> error + Run.
Variable Sprintf_other : json -> string.

Abbreviation command := (VMInitSerializableCommand Add Copy Run).
Abbreviation client := (testClient Add Copy Run).
Abbreviation record :=
  (record json_Unmarshal Decode_Add Decode_Copy Decode_Run Sprintf_other).
Abbreviation records :=
  (records json_Unmarshal Decode_Add Decode_Copy Decode_Run Sprintf_other).
Abbreviation Decode := (Decode Decode_Add Decode_Copy Decode_Run).

(** A record with a known directive: the variant's decoder decides. *)
Lemma record_recognized (cmd : string) (item : rawItem) (d : directive)
      (c : client) :
  json_Unmarshal cmd = inr item ->
  starts_with Sprintf_other item d ->
  record cmd c =
  match Decode d item with
  | inl err =>
      (c, Some (withMessage err
                  ("found " ++ keyword d ++ " but did not deserialize")))
  | inr x => (fetch x c, None)
  end.
Proof.
  intros HU (v & Hv & Hp). unfold Decoder.record. rewrite HU, Hv.
  destruct d; cbn [keyword] in Hp.
  - rewrite Hp. cbn [Decoder.Decode].
    destruct (Decode_Add item); reflexivity.
  - assert (H1 := @keyword_exclusive _ COPY ADD Hp).
    cbn [keyword] in H1. rewrite H1 by discriminate.
    rewrite Hp. cbn [Decoder.Decode].
    destruct (Decode_Copy item); reflexivity.
  - assert (H1 := @keyword_exclusive _ RUN ADD Hp).
    assert (H2 := @keyword_exclusive _ RUN COPY Hp).
    cbn [keyword] in H1, H2. rewrite H1, H2 by discriminate.
    rewrite Hp. cbn [Decoder.Decode].
    destruct (Decode_Run item); reflexivity.
Qed.

(** A record with an unknown directive: logged, and the loop goes
    on. *)
Lemma record_unrecognized (cmd : string) (item : rawItem) (c : client) :
  unrecognized json_Unmarshal Sprintf_other cmd item ->
  record cmd c = (Log item c, None).
Proof.
  intros (HU & v & Hv & Hp). unfold Decoder.record. rewrite HU, Hv.
  assert (H1 := Hp ADD). assert (H2 := Hp COPY). assert (H3 := Hp RUN).
  cbn [keyword] in H1, H2, H3. now rewrite H1, H2, H3.
Qed.

Lemma records_app (a b : list string) (c : client) :
  records (a ++ b) c =
  match records a c with
  | (c', None) => records b c'
  | stop => stop
  end.
Proof.
  revert c; induction a as [|cmd a IH]; intros c; cbn [app Decoder.records];
    [reflexivity|].
  destruct (record cmd c) as [c' [e|]]; auto.
Qed.

Lemma records_decodes (cmds : list string) (commands : list command)
      (skipped : list rawItem) :
  decodes json_Unmarshal Decode_Add Decode_Copy Decode_Run Sprintf_other
          cmds commands skipped ->
  forall c,
    records cmds c =
    ({| fetchedCommands := fetchedCommands c ++ commands;
        logged := logged c ++ skipped |}, None).
Proof.
  induction 1 as [| cmd item cmds commands skipped Hu _ IH
                  | cmd x cmds commands skipped Hw _ IH]; intros c.
  - cbn. rewrite !app_nil_r. now destruct c.
  - cbn [Decoder.records]. rewrite (record_unrecognized _ Hu), IH.
    unfold Log. cbn [fetchedCommands logged].
    now rewrite <- app_assoc.
  - destruct Hw as (item & d & HU & Hs & HD).
    cbn [Decoder.records].
    rewrite (record_recognized _ HU Hs), HD, IH.
    unfold fetch. cbn [fetchedCommands logged].
    now rewrite <- app_assoc.
Qed.

(** C8: the two ways a record can fail.  A batch whose records are
    unrecognized or well formed decodes without error: [Commands]
    returns nil, has fetched the instructions of the well-formed
    records in the order of the batch, and has logged each record with
    an unknown directive.  A record with a known directive whose fields
    do not decode ends the batch: [Commands] returns the decoder's error
    for that record under the message that names the directive found,
    and the records after it are not looked at. *)
Theorem unknown_directive_skipped_malformed_record_fatal (c : client) :
  (forall cmds commands skipped,
      decodes json_Unmarshal Decode_Add Decode_Copy Decode_Run
              Sprintf_other cmds commands skipped ->
      Commands json_Unmarshal Decode_Add Decode_Copy Decode_Run
               Sprintf_other (inr cmds) c =
      ({| fetchedCommands := commands;
          logged := logged c ++ skipped |}, None)) /\
  (forall pre commands skipped cmd d err post,
      decodes json_Unmarshal Decode_Add Decode_Copy Decode_Run
              Sprintf_other pre commands skipped ->
      malformed json_Unmarshal Decode_Add Decode_Copy Decode_Run
                Sprintf_other cmd d err ->
      Commands json_Unmarshal Decode_Add Decode_Copy Decode_Run
               Sprintf_other (inr (pre ++ cmd :: post)) c =
      ({| fetchedCommands := commands;
          logged := logged c ++ skipped |},
       Some (withMessage err
               ("found " ++ keyword d ++ " but did not deserialize")))).
Proof.
  split.
  - intros cmds commands skipped H. unfold Commands.
    now rewrite (records_decodes H).
  - intros pre commands skipped cmd d err post H (item & HU & Hs & HD).
    unfold Commands. rewrite records_app, (records_decodes H).
    cbn [Decoder.records].
    now rewrite (record_recognized _ HU Hs), HD.
Qed.

End Commands.

Import SampleCommands.

Lemma Sample_decodes :
  decodes Unmarshal SampleCommands.Decode SampleCommands.Decode
          SampleCommands.Decode SampleCommands.Sprintf_other
          ["expose"; "copy_hosts"]
          [IsCopy Instruction Instruction
                  {| OriginalCommand := "COPY hosts /etc/hosts";
                     Source := "hosts";
                     Target := "/etc/hosts" |}]
          [expose].
Proof.
  apply decodes_skip.
  - split; [reflexivity|].
    exists (JString "EXPOSE 8080"). split; [reflexivity|].
    intros []; reflexivity.
  - apply decodes_fetch; [|apply decodes_nil].
    exists copy_hosts, COPY. split; [reflexivity|]. split; [|reflexivity].
    exists (JString "COPY hosts /etc/hosts"). split; reflexivity.
Defined.

Lemma Sample_malformed :
  malformed Unmarshal SampleCommands.Decode SampleCommands.Decode
            SampleCommands.Decode SampleCommands.Sprintf_other
            "run_broken" RUN (errorString "Target expected type string").
Proof.
  exists run_broken. split; [reflexivity|]. split; [|reflexivity].
  exists (JString "RUN make"). split; reflexivity.
Defined.

Lemma unknown_directive_skipped_malformed_record_fatal_witness :
  Commands Unmarshal SampleCommands.Decode SampleCommands.Decode
           SampleCommands.Decode SampleCommands.Sprintf_other
           (inr ["expose"; "copy_hosts"]) client =
  ({| fetchedCommands :=
        [IsCopy Instruction Instruction
                {| OriginalCommand := "COPY hosts /etc/hosts";
                   Source := "hosts";
                   Target := "/etc/hosts" |}];
      logged := [expose] |}, None) /\
  Commands Unmarshal SampleCommands.Decode SampleCommands.Decode
           SampleCommands.Decode SampleCommands.Sprintf_other
           (inr (["expose"; "copy_hosts"] ++ "run_broken" :: ["copy_hosts"]))
           client =
  ({| fetchedCommands :=
        [IsCopy Instruction Instruction
                {| OriginalCommand := "COPY hosts /etc/hosts";
                   Source := "hosts";
                   Target := "/etc/hosts" |}];
      logged := [expose] |},
   Some (withMessage (errorString "Target expected type string")
                     "found RUN but did not deserialize")).
Proof.
  split.
  - apply (proj1 (@unknown_directive_skipped_malformed_record_fatal
                    Instruction Instruction Instruction Unmarshal
                    SampleCommands.Decode SampleCommands.Decode
                    SampleCommands.Decode SampleCommands.Sprintf_other
                    client)).
    exact Sample_decodes.
  - apply (proj2 (@unknown_directive_skipped_malformed_record_fatal
                    Instruction Instruction Instruction Unmarshal
                    SampleCommands.Decode SampleCommands.Decode
                    SampleCommands.Decode SampleCommands.Sprintf_other
                    client)
                 _ _ _ _ RUN _ _ Sample_decodes Sample_malformed).
Defined.

End DecoderFacts.

(* ================================================================== *)
(** ** The RPC surface *)
(* ================================================================== *)

Module ServiceFacts.
Import Service.

Lemma invoke_Stop (A : Type) (srv : RootfsServer) (reply : A) :
  invoke (Stop srv) reply = inl Unavailable.
Proof. reflexivity. Qed.

(** C9: once the service is stopped, every call of the client returns
    an error: [Abort], [Commands], [Ping], [Resource] (which then
    returns no channel), [StdErr], [StdOut] and [Success]. *)
Theorem stopped_service_fails_every_call
        (Add Copy Run : Type)
        (json_Unmarshal : string -> error + Decoder.rawItem)
        (Decode_Add : Decoder.rawItem -> error + Add)
        (Decode_Copy : Decoder.rawItem -> error + Copy)
        (Decode_Run : Decoder.rawItem -> error + Run)
        (Sprintf_other : Decoder.json -> string)
        (srv : RootfsServer)
        (c : Decoder.testClient Add Copy Run)
        (cause : error) (path : string) (lines : list string) :
  let stopped := Stop srv in
  Abort stopped cause <> None /\
  snd (Commands json_Unmarshal Decode_Add Decode_Copy Decode_Run
                Sprintf_other stopped c) <> None /\
  Ping stopped <> None /\
  Resource stopped path = (None, Some Unavailable) /\
  StdErr stopped lines <> None /\
  StdOut stopped lines <> None /\
  Success stopped <> None.
Proof.
  intros stopped.
  unfold Abort, Commands, Ping, Resource, StdErr, StdOut, Success,
    Decoder.Commands, stopped.
  rewrite !invoke_Stop. cbn.
  repeat split; discriminate.
Qed.

End ServiceFacts.

(* ================================================================== *)
(** ** Where the hypotheses above are needed *)
(* ================================================================== *)

Module Limits.
Import Producer Stream.

(** The constants of SHA-256, first and last. *)
Example SHA256_constants :
  List.length SHA256.K = 64 /\
  hd 0%Z SHA256.K = 0x428a2f98%Z /\ last SHA256.K 0%Z = 0xc67178f2%Z /\
  hd 0%Z SHA256.init = 0x6a09e667%Z /\ last SHA256.init 0%Z = 0x5be0cd19%Z.
Proof. vm_compute. repeat split. Qed.

(** With a buffer of no bytes every read returns nothing and no error:
    the loop sends empty chunks and is not left. *)
Example empty_buffer_spins :
  walkFn Sample.uuid 3 (Sample.rooted_at "/tmp/dir" 0) "/tmp/dir/a"
         (Some (Sample.regular "a" "hello")) 0 =
  (header (Sample.rooted_at "/tmp/dir" 0) "/tmp/dir/a" 420 false "u"
     :: repeat (contents [] "u") 3,
   1, Spinning).
Proof. reflexivity. Qed.

(** A negative size makes [make] panic, after the header was sent. *)
Example negative_buffer_panics :
  walkFn Sample.uuid 3 (Sample.rooted_at "/tmp/dir" (-1)) "/tmp/dir/a"
         (Some (Sample.regular "a" "hello")) 0 =
  ([header (Sample.rooted_at "/tmp/dir" (-1)) "/tmp/dir/a" 420 false "u"],
   1, Panicked).
Proof. reflexivity. Qed.

(** When [os.Lstat] of the root fails, the walk function is called with
    a nil entry and panics; nothing is sent. *)
Example missing_root_panics :
  WalkResource Sample.uuid 3 Sample.drr None = ([], Panicked).
Proof. reflexivity. Qed.

(** A directory that [os.ReadDir] lists with an error is visited twice,
    and sends two headers and two end markers. *)
Example ReadDir_error_repeats_the_directory :
  map Id (frames (fst (WalkResource Sample.uuid 3 Sample.drr
                                    (Some Sample.half_listed)))) =
  [Some "u"; Some "u"; Some "uu"; Some "uu"; Some "uuu"; Some "uuu"] /\
  map is_Header (frames (fst (WalkResource Sample.uuid 3 Sample.drr
                                           (Some Sample.half_listed)))) =
  [true; false; true; false; true; false] /\
  List.length (visits "/tmp/dir" Sample.half_listed) = 2.
Proof. vm_compute. repeat split. Qed.

(** An entry whose [Info] fails ends the walk: the entries after it are
    not visited, and the stream is ended as after a complete walk. *)
Example Info_error_ends_the_walk :
  WalkResource Sample.uuid 3 Sample.drr (Some Sample.vanishing) =
  (map Some (entries Sample.uuid Sample.drr 0
               [("/tmp/dir", Sample.vanishing);
                ("/tmp/dir/a", Sample.regular "a" "")])
   ++ [None],
   Returned (Some (errorString "lstat b: no such file or directory"))).
Proof. vm_compute. reflexivity. Qed.

(** Below a root that is not a clean absolute path, what remains of a
    path need not be the relative path: under the root "." the entry
    ".profile" loses its dot, and under "/tmp//dir" nothing is stripped
    but the leading separator. *)
Example remainder_below_other_roots :
  filepath.Join ["."; ".profile"] = ".profile" /\
  remainingPath (Sample.rooted_at "." 2) ".profile" = "profile" /\
  filepath.Join ["/tmp//dir"; "a"] = "/tmp/dir/a" /\
  remainingPath (Sample.rooted_at "/tmp//dir" 2) "/tmp/dir/a" = "tmp/dir/a".
Proof. vm_compute. repeat split. Qed.

End Limits.

(* ================================================================== *)
(** ** The session orchestrator: logs, the end of the loop, quiet
       sessions *)
(* ================================================================== *)

Module SessionMore.
Import Session SessionTrace.

(** What an iteration that goes on does to the logs and to
    [chanFinished]. *)
Lemma loop_select_logs (e : event) (p p' : testGRPCServerProvider) :
  loop_select e p = Next p' ->
  stdOutOutput p' = stdOutOutput p ++ non_empty (stdout_lines [e]) /\
  stdErrOutput p' = stdErrOutput p ++ non_empty (stderr_lines [e]) /\
  chanFinished p' = chanFinished p /\
  (e <> StoppedNotify).
Proof.
  destruct e; simpl; try discriminate.
  - destruct (chanFinished p); discriminate.
  - unfold non_empty. simpl.
    destruct (is_empty stdErrLine); intros H; injection H as <-; simpl;
      rewrite ?app_nil_r; repeat split; discriminate.
  - unfold non_empty. simpl.
    destruct (is_empty stdOutLine); intros H; injection H as <-; simpl;
      rewrite ?app_nil_r; repeat split; discriminate.
  - destruct (chanAborted p); [discriminate|].
    intros H; injection H as <-; simpl.
    rewrite !app_nil_r. repeat split; discriminate.
  - destruct (success p); intros H; injection H as <-; simpl;
      rewrite !app_nil_r; repeat split; discriminate.
  - destruct (chanAborted p); [|discriminate]. simpl.
    destruct (isAbortedClosed p); intros H; injection H as <-; simpl;
      rewrite !app_nil_r; repeat split; discriminate.
Qed.

Lemma loop_select_Exit (e : event) (p p' : testGRPCServerProvider) :
  loop_select e p = Exit p' ->
  e = StoppedNotify /\ chanFinished p = false /\ p' = finished p.
Proof.
  destruct e; simpl; try discriminate.
  - destruct (chanFinished p) eqn:E; [discriminate|].
    intros H; injection H as <-. auto.
  - destruct (is_empty stdErrLine); discriminate.
  - destruct (is_empty stdOutLine); discriminate.
  - destruct (chanAborted p); discriminate.
  - destruct (success p); discriminate.
  - destruct (chanAborted p); [|discriminate]. simpl.
    destruct (isAbortedClosed p); discriminate.
Qed.

Lemma non_empty_app (a b : list string) :
  non_empty (a ++ b) = non_empty a ++ non_empty b.
Proof. apply filter_app. Qed.

Lemma loop_logs (events : list event) (p p' : testGRPCServerProvider) :
  loop events p = Next p' \/ loop events p = Exit p' ->
  stdOutOutput p' =
    stdOutOutput p ++ non_empty (stdout_lines (before_stop events)) /\
  stdErrOutput p' =
    stdErrOutput p ++ non_empty (stderr_lines (before_stop events)).
Proof.
  revert p; induction events as [|e events IH]; intros p.
  - simpl. intros [H|H]; [|discriminate].
    injection H as <-. now rewrite !app_nil_r.
  - cbn [loop]. destruct (loop_select e p) as [q|q| |] eqn:E.
    + intros H. destruct (IH _ H) as [Ho He].
      destruct (loop_select_logs _ _ E) as (Eo & Ee & _ & Hne).
      assert (B : before_stop (e :: events) = e :: before_stop events)
        by (destruct e; congruence || reflexivity).
      rewrite B, Ho, He, Eo, Ee.
      change (e :: before_stop events) with ([e] ++ before_stop events).
      unfold stdout_lines, stderr_lines.
      rewrite !flat_map_app, !non_empty_app, !app_assoc. split; reflexivity.
    + intros [H|H]; [discriminate|]. injection H as <-.
      apply loop_select_Exit in E as (-> & _ & ->).
      simpl. now rewrite !app_nil_r.
    + intros [H|H]; discriminate.
    + intros [H|H]; discriminate.
Qed.

(** X1: the logs.  When the loop is still running, or has ended, the
    standard-output log holds the lines received on [OnStdout] before the
    loop ended, without the empty ones and in the order they came; the
    standard-error log likewise for [OnStderr].  No line goes to the other
    log, and no other event adds a line. *)
Theorem logs_hold_the_non_empty_lines
        (events : list event) (p : testGRPCServerProvider) :
  Start ReadyNotify events = Next p \/ Start ReadyNotify events = Exit p ->
  ConsumedStdout p = non_empty (stdout_lines (before_stop events)) /\
  ConsumedStderr p = non_empty (stderr_lines (before_stop events)).
Proof.
  intros H. apply (loop_logs events ready) in H. exact H.
Qed.

Lemma logs_hold_the_non_empty_lines_witness :
  let events := [OnStdout "Step 1/2"; OnStderr ""; OnStderr "warning";
                 OnStdout ""; OnSuccess; OnStdout "Step 2/2";
                 StoppedNotify; OnStdout "late"] in
  exists p,
    Start ReadyNotify events = Exit p /\
    ConsumedStdout p = ["Step 1/2"; "Step 2/2"] /\
    ConsumedStderr p = ["warning"].
Proof.
  intros events. eexists. split; [reflexivity|].
  apply (@logs_hold_the_non_empty_lines events). right. reflexivity.
Defined.

Lemma loop_chanFinished (events : list event)
      (p p' : testGRPCServerProvider) :
  loop events p = Next p' -> chanFinished p' = chanFinished p.
Proof.
  revert p; induction events as [|e events IH]; intros p; cbn [loop].
  - now intros H; injection H as <-.
  - destruct (loop_select e p) as [q|q| |] eqn:E; try discriminate.
    intros H. rewrite (IH _ H).
    now destruct (loop_select_logs _ _ E) as (_ & _ & Ef & _).
Qed.

(** X2: the end of the loop.  While the loop runs [chanFinished] is
    open.  The first [StoppedNotify] closes it and ends the loop; nothing
    else of the provider changes then, and whatever events come after it
    are not processed. *)
Theorem loop_ends_when_stopped
        (pre post : list event) (p : testGRPCServerProvider) :
  Start ReadyNotify pre = Next p ->
  chanFinished p = false /\
  Start ReadyNotify (pre ++ StoppedNotify :: post) = Exit (finished p).
Proof.
  rewrite !SessionFacts.Start_ReadyNotify. intros H.
  assert (Hf : chanFinished p = false) by now rewrite (loop_chanFinished _ _ H).
  split; [exact Hf|].
  rewrite SessionFacts.loop_app, H. cbn [loop loop_select].
  now rewrite Hf.
Qed.

Lemma loop_ends_when_stopped_witness :
  exists p,
    Start ReadyNotify [OnStdout "done"; OnSuccess] = Next p /\
    chanFinished p = false /\
    Start ReadyNotify ([OnStdout "done"; OnSuccess]
                       ++ StoppedNotify :: [OnAbort (errorString "late")]) =
    Exit (finished p).
Proof.
  eexists. split; [reflexivity|].
  apply (@loop_ends_when_stopped [OnStdout "done"; OnSuccess]
                                 [OnAbort (errorString "late")]).
  reflexivity.
Defined.

Lemma loop_abortError_none (events : list event)
      (p p' : testGRPCServerProvider) :
  loop events p = Next p' ->
  existsb is_OnAbort events = false ->
  abortError p' = abortError p.
Proof.
  revert p; induction events as [|e events IH]; intros p; cbn [loop existsb].
  - now intros H; injection H as <-.
  - destruct (loop_select e p) as [q|q| |] eqn:E; try discriminate.
    intros H [He Hes]%orb_false_iff. rewrite (IH _ H Hes).
    destruct (SessionFacts.loop_select_Next _ _ E) as (_ & _ & _ & Ha & _).
    rewrite Ha. destruct e; try reflexivity. discriminate.
Qed.

(** X3: a quiet session.  As long as neither a success nor an abort
    event was received, whatever lines were logged, the loop has
    dispatched no stop request, reports no abort cause and no success, and
    cannot take the case of the aborted channel. *)
Theorem quiet_session_requests_no_stop
        (events : list event) (p : testGRPCServerProvider) :
  Start ReadyNotify events = Next p ->
  existsb is_OnSuccess events = false ->
  existsb is_OnAbort events = false ->
  stops p = 0 /\ Aborted_ p = None /\ Succeeded p = false /\
  loop_select Aborted p = NotReady.
Proof.
  rewrite SessionFacts.Start_ReadyNotify. intros H Hs Ha.
  pose proof (SessionFacts.loop_stops _ _ H) as Hstops.
  pose proof (SessionFacts.loop_success _ _ H) as Hsucc.
  pose proof (SessionFacts.loop_chanAborted _ _ H) as Hc.
  pose proof (loop_abortError_none _ _ H Ha) as Hab.
  rewrite Hs in Hsucc. rewrite Ha in Hc. cbn in Hstops, Hsucc, Hc, Hab.
  assert (Hi : isAbortedClosed p = false).
  { destruct (isAbortedClosed p) eqn:Ei; [|reflexivity].
    rewrite (SessionFacts.loop_isAbortedClosed _ _ H) in Hc;
      [discriminate | discriminate | exact Ei]. }
  rewrite Hsucc, Hi in Hstops. cbn in Hstops.
  unfold Aborted_, Succeeded. cbn [loop_select]. rewrite Hc.
  repeat split; auto. lia.
Qed.

Lemma quiet_session_requests_no_stop_witness :
  exists p,
    Start ReadyNotify [OnStdout "a"; OnStderr "b"; OnStdout ""] = Next p /\
    stops p = 0 /\ Aborted_ p = None /\ Succeeded p = false /\
    loop_select Aborted p = NotReady.
Proof.
  eexists. split; [reflexivity|].
  apply (@quiet_session_requests_no_stop
           [OnStdout "a"; OnStderr "b"; OnStdout ""]); reflexivity.
Defined.

End SessionMore.

(* ================================================================== *)
(** ** The command decoder: the queue, and the records the batch drops *)
(* ================================================================== *)

Module DecoderMore.
Import Decoder Queue.

Section Commands.

Variables Add Copy Run : Type.
Variable json_Unmarshal : string -> error + rawItem.
Variable Decode_Add : rawItem -> error + Add.
Variable Decode_Copy : rawItem -> error + Copy.
Variable Decode_Run : rawItem -> error + Run.
Variable Sprintf_other : json -> string.

Abbreviation client := (testClient Add Copy Run).
Abbreviation Commands :=
  (Commands json_Unmarshal Decode_Add Decode_Copy Decode_Run Sprintf_other).
Abbreviation records :=
  (records json_Unmarshal Decode_Add Decode_Copy Decode_Run Sprintf_other).
Abbreviation decodes :=
  (decodes json_Unmarshal Decode_Add Decode_Copy Decode_Run Sprintf_other).

Lemma drain_queue (k : nat) (c : client) :
  drain (List.length (fetchedCommands c) + k) c =
  (map Some (fetchedCommands c) ++ repeat None k,
   {| fetchedCommands := []; logged := logged c |}).
Proof.
  destruct c as [queue log]. cbn [fetchedCommands logged].
  revert log; induction queue as [|x queue IH]; intros log.
  - cbn [List.length Nat.add map app].
    induction k as [|k IHk]; [reflexivity|].
    cbn [drain NextCommand fetchedCommands repeat]. now rewrite IHk.
  - cbn [List.length Nat.add drain NextCommand fetchedCommands logged].
    rewrite IH. reflexivity.
Qed.

(** X4: the queue.  After a batch without malformed records, the calls
    of [NextCommand] return the instructions of this batch one by one in
    the order of the batch, whatever the queue held before [Commands] was
    called; once they are used up every further call returns nil and
    leaves the client as it is. *)
Theorem queue_is_drained_in_batch_order
        (cmds : list string)
        (commands : list (VMInitSerializableCommand Add Copy Run))
        (skipped : list rawItem) (c : client) (k : nat) :
  decodes cmds commands skipped ->
  drain (List.length commands + k) (fst (Commands (inr cmds) c)) =
  (map Some commands ++ repeat None k,
   {| fetchedCommands := []; logged := logged c ++ skipped |}).
Proof.
  intros H. unfold Decoder.Commands.
  rewrite (DecoderFacts.records_decodes H). cbn [fst fetchedCommands logged app].
  apply (drain_queue k {| fetchedCommands := commands;
                          logged := logged c ++ skipped |}).
Qed.

(** X5: a record without its original text.  A record that parses but
    has no [OriginalCommand] key is passed over without a diagnostic: the
    batch decodes as if the record were not in it. *)
Theorem record_without_original_text_is_dropped
        (pre post : list string) (cmd : string) (item : rawItem)
        (c : client) :
  json_Unmarshal cmd = inr item ->
  lookup "OriginalCommand" item = None ->
  Commands (inr (pre ++ cmd :: post)) c = Commands (inr (pre ++ post)) c.
Proof.
  intros HU Hl. unfold Decoder.Commands.
  rewrite !DecoderFacts.records_app.
  destruct (Decoder.records json_Unmarshal Decode_Add Decode_Copy Decode_Run
              Sprintf_other pre _) as [c' [e|]]; [reflexivity|].
  cbn [Decoder.records]. unfold record. now rewrite HU, Hl.
Qed.

(** X6: a record that is not JSON.  It ends the batch with the error of
    [json.Unmarshal] itself, not wrapped; the instructions decoded before
    it stay in the queue and the records after it are not looked at. *)
Theorem invalid_json_ends_the_batch
        (pre post : list string) (cmd : string) (err : error)
        (commands : list (VMInitSerializableCommand Add Copy Run))
        (skipped : list rawItem) (c : client) :
  decodes pre commands skipped ->
  json_Unmarshal cmd = inl err ->
  Commands (inr (pre ++ cmd :: post)) c =
  ({| fetchedCommands := commands; logged := logged c ++ skipped |},
   Some err).
Proof.
  intros H HU. unfold Decoder.Commands.
  rewrite DecoderFacts.records_app, (DecoderFacts.records_decodes H).
  cbn [Decoder.records]. unfold record. now rewrite HU.
Qed.

(** X7: the directive is a prefix.  The kind of a record is decided by
    the first letters of its original text alone: a text that goes on
    after ADD, COPY or RUN with anything at all, a space or not, is decoded
    as that variant. *)
Theorem directive_is_decided_by_the_prefix
        (cmd : string) (item : rawItem) (d : directive) (rest : string)
        (c : client) :
  json_Unmarshal cmd = inr item ->
  lookup "OriginalCommand" item = Some (JString (keyword d ++ rest)) ->
  Commands (inr [cmd]) c =
  match Decode Decode_Add Decode_Copy Decode_Run d item with
  | inl err =>
      ({| fetchedCommands := []; logged := logged c |},
       Some (withMessage err
               ("found " ++ keyword d ++ " but did not deserialize")))
  | inr command =>
      ({| fetchedCommands := [command]; logged := logged c |}, None)
  end.
Proof.
  intros HU Hl. unfold Decoder.Commands. cbn [Decoder.records].
  rewrite (@DecoderFacts.record_recognized _ _ _ json_Unmarshal Decode_Add
             Decode_Copy Decode_Run Sprintf_other cmd item d _ HU).
  - destruct (Decode Decode_Add Decode_Copy Decode_Run d item); reflexivity.
  - exists (JString (keyword d ++ rest)). split; [exact Hl|].
    cbn [Sprintf_s]. apply PathFacts.HasPrefix_app.
Qed.

End Commands.

Lemma queue_is_drained_in_batch_order_witness :
  drain (1 + 2)
        (fst (Decoder.Commands
                SampleCommands.Unmarshal SampleCommands.Decode
                SampleCommands.Decode SampleCommands.Decode
                SampleCommands.Sprintf_other
                (inr ["expose"; "copy_hosts"])
                {| fetchedCommands :=
                     [IsRun SampleCommands.Instruction
                            SampleCommands.Instruction
                            {| SampleCommands.OriginalCommand := "RUN old";
                               SampleCommands.Source := "";
                               SampleCommands.Target := "" |}];
                   logged := [] |})) =
  ([Some (IsCopy SampleCommands.Instruction SampleCommands.Instruction
                 {| SampleCommands.OriginalCommand := "COPY hosts /etc/hosts";
                    SampleCommands.Source := "hosts";
                    SampleCommands.Target := "/etc/hosts" |});
    None; None],
   {| fetchedCommands := []; logged := [SampleCommands.expose] |}).
Proof.
  exact (@queue_is_drained_in_batch_order
           _ _ _ SampleCommands.Unmarshal SampleCommands.Decode
           SampleCommands.Decode SampleCommands.Decode
           SampleCommands.Sprintf_other
           ["expose"; "copy_hosts"]
           [IsCopy SampleCommands.Instruction SampleCommands.Instruction
                   {| SampleCommands.OriginalCommand :=
                        "COPY hosts /etc/hosts";
                      SampleCommands.Source := "hosts";
                      SampleCommands.Target := "/etc/hosts" |}]
           [SampleCommands.expose]
           {| fetchedCommands :=
                [IsRun SampleCommands.Instruction
                       SampleCommands.Instruction
                       {| SampleCommands.OriginalCommand := "RUN old";
                          SampleCommands.Source := "";
                          SampleCommands.Target := "" |}];
              logged := [] |}
           2 DecoderFacts.Sample_decodes).
Defined.

Lemma record_without_original_text_is_dropped_witness :
  Decoder.Commands Unmarshal SampleCommands.Decode SampleCommands.Decode
                   SampleCommands.Decode SampleCommands.Sprintf_other
                   (inr (["copy_hosts"] ++ "untitled" :: ["expose"]))
                   SampleCommands.client =
  Decoder.Commands Unmarshal SampleCommands.Decode SampleCommands.Decode
                   SampleCommands.Decode SampleCommands.Sprintf_other
                   (inr (["copy_hosts"] ++ ["expose"]))
                   SampleCommands.client.
Proof.
  apply (@record_without_original_text_is_dropped
           _ _ _ Unmarshal SampleCommands.Decode SampleCommands.Decode
           SampleCommands.Decode SampleCommands.Sprintf_other
           ["copy_hosts"] ["expose"] "untitled" untitled).
  - reflexivity.
  - reflexivity.
Defined.

Lemma invalid_json_ends_the_batch_witness :
  Decoder.Commands SampleCommands.Unmarshal SampleCommands.Decode
                   SampleCommands.Decode SampleCommands.Decode
                   SampleCommands.Sprintf_other
                   (inr (["expose"; "copy_hosts"] ++ "{" :: ["copy_hosts"]))
                   SampleCommands.client =
  ({| fetchedCommands :=
        [IsCopy SampleCommands.Instruction SampleCommands.Instruction
                {| SampleCommands.OriginalCommand := "COPY hosts /etc/hosts";
                   SampleCommands.Source := "hosts";
                   SampleCommands.Target := "/etc/hosts" |}];
      logged := [SampleCommands.expose] |},
   Some (errorString "invalid character")).
Proof.
  apply (@invalid_json_ends_the_batch
           _ _ _ SampleCommands.Unmarshal SampleCommands.Decode
           SampleCommands.Decode SampleCommands.Decode
           SampleCommands.Sprintf_other
           ["expose"; "copy_hosts"] ["copy_hosts"] "{"
           (errorString "invalid character") _ _ SampleCommands.client
           DecoderFacts.Sample_decodes).
  reflexivity.
Defined.

Lemma directive_is_decided_by_the_prefix_witness :
  Decoder.Commands Unmarshal SampleCommands.Decode SampleCommands.Decode
                   SampleCommands.Decode SampleCommands.Sprintf_other
                   (inr ["address"]) SampleCommands.client =
  ({| fetchedCommands :=
        [IsAdd SampleCommands.Instruction SampleCommands.Instruction
               {| SampleCommands.OriginalCommand := "ADDRESS 10.0.0.1";
                  SampleCommands.Source := "";
                  SampleCommands.Target := "/etc/address" |}];
      logged := [] |}, None).
Proof.
  apply (@directive_is_decided_by_the_prefix
           _ _ _ Unmarshal SampleCommands.Decode SampleCommands.Decode
           SampleCommands.Decode SampleCommands.Sprintf_other
           "address" address ADD "RESS 10.0.0.1" SampleCommands.client).
  - reflexivity.
  - reflexivity.
Defined.

End DecoderMore.

(* ================================================================== *)
(** ** The resource consumer: receive errors, the shape of the results,
       frames out of place *)
(* ================================================================== *)

Module ConsumerMore.
Import Consumer Accept.

Lemma goroutine_of (stream : list recv) (s : state) (c : control) :
  iterations (stream ++ [stream_end]) start = (s, c) ->
  goroutine stream =
  {| results := sent s; store := objects s;
     closed := match c with Panic => false | _ => true end |}.
Proof. unfold goroutine. intros ->. now destruct c. Qed.

(** X8: receive errors.  The loop looks at the response before it looks
    at the error.  When [Recv] returns no response, the loop is left
    without a word, whatever the error: a stream cut by a transport error
    ends like a stream that ended.  Only an error that comes together with
    a response is sent on, wrapped, and then that response is not
    applied. *)
Theorem receive_error_is_reported_only_with_a_response :
  (forall (pre rest : list recv) (err : option error),
      goroutine (pre ++ (None, err) :: rest) = goroutine pre) /\
  (forall (pre rest : list recv) (s : state) (m : ResourceChunk)
          (err : error),
      iterations pre start = (s, Continue) ->
      goroutine (pre ++ (Some m, Some err) :: rest) =
      {| results := sent s ++ [Error (withMessage err "failed reading chunk")];
         store := objects s;
         closed := true |}).
Proof.
  split.
  - intros pre rest err. unfold goroutine.
    rewrite <- app_assoc, !ConsumerFacts.iterations_app.
    destruct (iterations pre start) as [s []]; reflexivity.
  - intros pre rest s m err H. unfold goroutine.
    rewrite <- app_assoc, ConsumerFacts.iterations_app, H. reflexivity.
Qed.

Lemma receive_error_is_reported_only_with_a_response_witness :
  goroutine (delivered [SampleStream.hosts "a"]
             ++ (None, Some (errorString "connection reset")) :: []) =
  goroutine (delivered [SampleStream.hosts "a"]) /\
  goroutine (delivered [SampleStream.hosts "a"]
             ++ (Some (frame_Eof "a"), Some (errorString "connection reset"))
             :: []) =
  {| results := [Error (withMessage (errorString "connection reset")
                                    "failed reading chunk")];
     store := [{| contents := [];
                  isDir := false;
                  sourcePath := "etc/hosts";
                  targetMode := 420;
                  targetPath := "/etc/hosts";
                  targetUser := "0:0";
                  targetWorkdir := "/work" |}];
     closed := true |}.
Proof.
  split.
  - apply (proj1 receive_error_is_reported_only_with_a_response).
  - apply (proj2 receive_error_is_reported_only_with_a_response
                 (delivered [SampleStream.hosts "a"]) []
                 (fst (iterations (delivered [SampleStream.hosts "a"]) start))).
    reflexivity.
Defined.

(** *** Well-formed streams *)

Lemma length_update (i : nat) f (h : heap) :
  List.length (update i f h) = List.length h.
Proof.
  revert i; induction h as [|r h IH]; intros [|i]; simpl; auto.
Qed.

Lemma nth_error_update (i : nat) f (h : heap) :
  nth_error (update i f h) i = option_map f (nth_error h i).
Proof.
  revert i; induction h as [|r h IH]; intros [|i]; simpl; auto.
Qed.

Lemma is_pointer_more (n n' : nat) (v : value) :
  n <= n' -> is_pointer n v -> is_pointer n' v.
Proof. intros Hn (p & -> & Hp). exists p. split; [reflexivity | lia]. Qed.

(** The loop on a well-formed stream: it consumes it all, allocates an
    object per header and sends a pointer per end marker. *)
Lemma iterations_well_formed (frames : list ResourceChunk) :
  forall s,
    well_formed (is_open s) frames = true ->
    (forall p, currentResource s = Some p -> p < List.length (objects s)) ->
    exists s',
      iterations (delivered frames) s = (s', Continue) /\
      (exists more,
          sent s' = sent s ++ more /\
          List.length more = List.length (filter Stream.is_Eof frames) /\
          Forall (is_pointer (List.length (objects s'))) more) /\
      List.length (objects s') =
        List.length (objects s)
        + List.length (filter Stream.is_Header frames).
Proof.
  induction frames as [|m frames IH]; intros s Hwf Hcur.
  - exists s. split; [reflexivity|]. split; [|cbn; lia].
    exists []. rewrite app_nil_r. repeat split. constructor.
  - destruct m as [[[h|c|e]|]]; cbn [well_formed Payload] in Hwf.
    + (* header *)
      destruct (IH {| currentResource := Some (List.length (objects s));
                      objects := objects s ++
                        [{| contents := [];
                            isDir := IsDir h;
                            sourcePath := SourcePath h;
                            targetMode := fs_FileMode (FileMode h);
                            targetPath := TargetPath h;
                            targetUser := TargetUser h;
                            targetWorkdir := TargetWorkdir h |}];
                      sent := sent s |})
        as (s' & Hit & (more & Hs & Hl & Hp) & Ho).
      * exact Hwf.
      * cbn [currentResource objects]. intros p [= <-].
        rewrite length_app. cbn. lia.
      * exists s'. split; [exact Hit|]. split.
        -- exists more. repeat split; assumption.
        -- rewrite Ho. cbn [objects]. rewrite length_app. cbn. lia.
    + (* chunk *)
      apply andb_true_iff in Hwf as [[Hopen Hsum]%andb_true_iff Hwf].
      unfold is_open in Hopen, Hwf.
      destruct (currentResource s) as [p|] eqn:Ecur; [|discriminate].
      destruct (IH {| currentResource := Some p;
                      objects := update p (append_contents (Chunk c))
                                        (objects s);
                      sent := sent s |})
        as (s' & Hit & (more & Hs & Hl & Hp) & Ho).
      * exact Hwf.
      * cbn [currentResource objects]. intros q [= <-].
        rewrite length_update. now apply Hcur.
      * exists s'. split.
        -- cbn [delivered map]. rewrite PipelineFacts.iterations_cons.
           cbn [iteration GetPayload Payload frame_Chunk].
           rewrite Hsum, Ecur. cbn [negb]. exact Hit.
        -- split; [exists more; repeat split; assumption|].
           rewrite Ho. cbn [objects]. rewrite length_update.
           cbn. reflexivity.
    + (* end marker *)
      apply andb_true_iff in Hwf as [Hopen Hwf].
      unfold is_open in Hopen, Hwf.
      destruct (currentResource s) as [p|] eqn:Ecur; [|discriminate].
      destruct (IH (send (Resource (Some p)) s))
        as (s' & Hit & (more & Hs & Hl & Hp) & Ho).
      * unfold is_open. cbn [send currentResource]. now rewrite Ecur.
      * cbn [send currentResource objects]. intros q Hq.
        rewrite Ecur in Hq. now apply Hcur.
      * assert (Hmono : List.length (objects s)
                        <= List.length (objects s')).
        { rewrite Ho. cbn [send objects]. lia. }
        exists s'. split.
        -- cbn [delivered map]. rewrite PipelineFacts.iterations_cons.
           cbn [iteration GetPayload Payload frame_Eof]. rewrite Ecur.
           exact Hit.
        -- split.
           ++ exists (Resource (Some p) :: more).
              cbn [send sent] in Hs. rewrite Hs, <- app_assoc.
              repeat split.
              ** cbn. now rewrite Hl.
              ** constructor; [|exact Hp].
                 exists p. split; [reflexivity|].
                 specialize (Hcur p eq_refl). lia.
           ++ rewrite Ho. cbn. reflexivity.
    + (* no payload *)
      destruct (IH s Hwf Hcur) as (s' & Hit & (more & Hs & Hl & Hp) & Ho).
      exists s'. split; [exact Hit|]. split.
      * exists more. repeat split; assumption.
      * rewrite Ho. cbn. reflexivity.
Qed.

(** X9: the shape of the results.  On a stream that is delivered
    without error, in which every chunk carries the hash of its payload and
    no chunk or end marker comes before the first header, the consumer
    reads to the end and closes its channel; it has allocated one object
    per header and sent one value per end marker, each of them a non-nil
    pointer to an allocated object: no error, and nothing for a header
    that was not followed by an end marker. *)
Theorem one_result_per_end_marker (frames : list ResourceChunk) :
  well_formed false frames = true ->
  let o := goroutine (delivered frames) in
  closed o = true /\
  List.length (results o) = List.length (filter Stream.is_Eof frames) /\
  List.length (store o) = List.length (filter Stream.is_Header frames) /\
  Forall (is_pointer (List.length (store o))) (results o).
Proof.
  intros Hwf o.
  destruct (@iterations_well_formed frames start Hwf)
    as (s' & Hit & (more & Hs & Hl & Hp) & Ho); [discriminate|].
  assert (E : o = {| results := sent s'; store := objects s';
                     closed := true |}).
  { unfold o. apply (@goroutine_of _ s' Break).
    now rewrite ConsumerFacts.iterations_app, Hit. }
  rewrite E. cbn [closed results store]. cbn [start sent objects] in Hs, Ho.
  rewrite Hs. cbn [app]. repeat split; auto.
Qed.

Lemma one_result_per_end_marker_witness :
  let frames := [SampleStream.hosts "a"; SampleStream.hosts "b";
                 frame_Chunk SampleStream.stray; frame_Eof "b"] in
  let o := goroutine (delivered frames) in
  closed o = true /\
  List.length (results o) = 1 /\
  List.length (store o) = 2 /\
  Forall (is_pointer (List.length (store o))) (results o).
Proof.
  apply (@one_result_per_end_marker
           [SampleStream.hosts "a"; SampleStream.hosts "b";
            frame_Chunk SampleStream.stray; frame_Eof "b"]).
  vm_compute. reflexivity.
Defined.

(** *** Frames out of place *)

Lemma iteration_sent (r : recv) (s : state) :
  exists more, sent (fst (iteration r s)) = sent s ++ more.
Proof.
  destruct r as [[[[[h|c|e]|]]|] [err|]]; cbn [iteration GetPayload Payload];
    try (exists []; cbn; now rewrite app_nil_r);
    try (eexists; cbn; reflexivity).
  - destruct (negb (bytes_eqb (SHA256.Sum256 (Chunk c)) (Checksum c))).
    + eexists; cbn; reflexivity.
    + destruct (currentResource s); exists []; cbn; now rewrite app_nil_r.
Qed.

Lemma iterations_sent (stream : list recv) (s : state) :
  exists more, sent (fst (iterations stream s)) = sent s ++ more.
Proof.
  revert s; induction stream as [|r stream IH]; intros s.
  - exists []. cbn. now rewrite app_nil_r.
  - rewrite PipelineFacts.iterations_cons.
    destruct (iteration_sent r s) as [m1 H1].
    destruct (iteration r s) as [s' []]; cbn [fst] in *;
      try (exists m1; exact H1).
    destruct (IH s') as [m2 H2]. exists (m1 ++ m2).
    now rewrite H2, H1, app_assoc.
Qed.

(** X10: frames before the first header.  A chunk with a good checksum
    that arrives while no entry is open makes the goroutine panic on the
    nil [currentResource]: nothing was sent and the channel is never
    closed.  An end marker that arrives while no entry is open is answered
    by sending that nil pointer, and the loop goes on. *)
Theorem frames_before_the_first_header :
  (forall (c : ResourceChunk_ResourceContents) (rest : list ResourceChunk),
      SHA256.Sum256 (Chunk c) = Checksum c ->
      goroutine (delivered (frame_Chunk c :: rest)) =
      {| results := []; store := []; closed := false |}) /\
  (forall (id : string) (rest : list ResourceChunk),
      exists more,
        results (goroutine (delivered (frame_Eof id :: rest))) =
        Resource None :: more).
Proof.
  split.
  - intros c rest H. apply bytes_eqb_eq in H.
    unfold goroutine. cbn [delivered map app].
    rewrite PipelineFacts.iterations_cons.
    cbn [iteration GetPayload Payload frame_Chunk]. now rewrite H.
  - intros id rest. unfold goroutine. cbn [delivered map app].
    rewrite PipelineFacts.iterations_cons.
    cbn [iteration GetPayload Payload frame_Eof].
    destruct (iterations_sent
                (map (fun m : ResourceChunk => (Some m, @None error)) rest
                 ++ [stream_end])
                (send (Resource (currentResource start)) start))
      as [more Hm].
    exists more.
    destruct (iterations _ (send (Resource (currentResource start)) start))
      as [s' []]; cbn [fst results] in *; exact Hm.
Qed.

Lemma frames_before_the_first_header_witness :
  goroutine (delivered (frame_Chunk SampleStream.stray
                        :: [frame_Eof "b"])) =
  {| results := []; store := []; closed := false |}.
Proof.
  apply (proj1 frames_before_the_first_header SampleStream.stray
               [frame_Eof "b"]).
  reflexivity.
Defined.

(** X11: an entry stays open after its end marker.  The end marker
    sends the pointer to the current object and leaves it current.  A
    chunk that follows without a new header is appended to that object:
    the resource the receiver was handed changes after it was sent. *)
Theorem entry_stays_open_after_its_end
        (pre : list recv) (s : state) (p : nat) (r : testResolvedResource)
        (id : string) (c : ResourceChunk_ResourceContents) :
  iterations pre start = (s, Continue) ->
  currentResource s = Some p ->
  nth_error (objects s) p = Some r ->
  SHA256.Sum256 (Chunk c) = Checksum c ->
  let sent_then := goroutine (pre ++ delivered [frame_Eof id]) in
  let later := goroutine (pre ++ delivered [frame_Eof id; frame_Chunk c]) in
  results sent_then = sent s ++ [Resource (Some p)] /\
  nth_error (store sent_then) p = Some r /\
  results later = sent s ++ [Resource (Some p)] /\
  nth_error (store later) p = Some (append_contents (Chunk c) r) /\
  closed later = true.
Proof.
  intros Hpre Hcur Hr Hsum sent_then later.
  apply bytes_eqb_eq in Hsum.
  assert (E1 : sent_then =
               {| results := sent s ++ [Resource (Some p)];
                  store := objects s; closed := true |}).
  { unfold sent_then, goroutine.
    rewrite <- app_assoc, ConsumerFacts.iterations_app, Hpre.
    cbn [delivered map app]. rewrite PipelineFacts.iterations_cons.
    cbn [iteration GetPayload Payload frame_Eof]. now rewrite Hcur. }
  assert (E2 : later =
               {| results := sent s ++ [Resource (Some p)];
                  store := update p (append_contents (Chunk c)) (objects s);
                  closed := true |}).
  { unfold later, goroutine.
    rewrite <- app_assoc, ConsumerFacts.iterations_app, Hpre.
    cbn [delivered map app]. rewrite PipelineFacts.iterations_cons.
    cbn [iteration GetPayload Payload frame_Eof].
    rewrite PipelineFacts.iterations_cons.
    cbn [iteration GetPayload Payload frame_Chunk send currentResource].
    now rewrite Hsum, Hcur. }
  rewrite E1, E2. cbn [results store closed].
  rewrite nth_error_update, Hr. repeat split; auto.
Qed.

Lemma entry_stays_open_after_its_end_witness :
  let sent_then :=
    goroutine (delivered [SampleStream.hosts "a"]
               ++ delivered [frame_Eof "a"]) in
  let later :=
    goroutine (delivered [SampleStream.hosts "a"]
               ++ delivered [frame_Eof "a";
                             frame_Chunk SampleStream.stray]) in
  results sent_then = [Resource (Some 0)] /\
  option_map contents (nth_error (store sent_then) 0) = Some [] /\
  results later = [Resource (Some 0)] /\
  option_map contents (nth_error (store later) 0) =
    Some (bytes_of_string "127.0.0.1 host") /\
  closed later = true.
Proof.
  destruct (@entry_stays_open_after_its_end
              (delivered [SampleStream.hosts "a"])
              (fst (iterations (delivered [SampleStream.hosts "a"]) start))
              0
              {| contents := [];
                 isDir := false;
                 sourcePath := "etc/hosts";
                 targetMode := 420;
                 targetPath := "/etc/hosts";
                 targetUser := "0:0";
                 targetWorkdir := "/work" |}
              "a" SampleStream.stray
              eq_refl eq_refl eq_refl eq_refl)
    as (H1 & H2 & H3 & H4 & H5).
  cbv zeta. rewrite H1, H2, H3, H4, H5. repeat split.
Defined.

(** *** The length of a checksum *)

Lemma length_be_bytes (n : nat) (x : Z) :
  List.length (SHA256.be_bytes n x) = n.
Proof.
  unfold SHA256.be_bytes. now rewrite length_map, length_rev, length_seq.
Qed.

Lemma length_compress (h block : list Z) :
  List.length h = 8 -> List.length (SHA256.compress h block) = 8.
Proof.
  intros H. unfold SHA256.compress.
  rewrite length_map, length_combine, H. reflexivity.
Qed.

Lemma length_blocks (fuel : nat) (h bs : list Z) :
  List.length h = 8 -> List.length (SHA256.blocks fuel h bs) = 8.
Proof.
  revert h bs; induction fuel as [|fuel IH]; intros h bs H; cbn [SHA256.blocks];
    [exact H|].
  destruct bs; [exact H|]. apply IH. now apply length_compress.
Qed.

Lemma length_Sum256 (data : bytes) : List.length (SHA256.Sum256 data) = 32.
Proof.
  unfold SHA256.Sum256. rewrite length_map.
  pose proof (@length_blocks
                (List.length (SHA256.pad (map Z_of_byte data)))
                SHA256.init (SHA256.pad (map Z_of_byte data)) eq_refl) as H.
  destruct (SHA256.blocks _ SHA256.init _)
    as [|a [|b [|c [|d [|e [|f [|g [|h [|]]]]]]]]]; try discriminate.
  cbn [flat_map]. rewrite !length_app, !length_be_bytes. reflexivity.
Qed.

(** X12: the length of a checksum.  [sha256.Sum256] returns 32 bytes
    whatever it is given, so every checksum the producer sends is 32 bytes
    long, and the consumer turns down every chunk whose declared checksum
    has another length, whatever its payload: it sends nil and leaves the
    loop. *)
Theorem checksum_has_32_bytes :
  (forall data : bytes, List.length (SHA256.Sum256 data) = 32) /\
  (forall (payload : bytes) (id : string),
      match Payload (Producer.contents payload id) with
      | Some (ResourceChunk_Chunk c) => List.length (Checksum c) = 32
      | _ => False
      end) /\
  (forall (c : ResourceChunk_ResourceContents) (s : state),
      List.length (Checksum c) <> 32 ->
      iteration (Some (frame_Chunk c), None) s = (send Nil s, Break)).
Proof.
  split; [exact length_Sum256|]. split.
  - intros payload id. cbn. apply length_Sum256.
  - intros c s H. apply ConsumerFacts.iteration_checksum_mismatch.
    intros E. apply H. rewrite <- E. apply length_Sum256.
Qed.

Lemma checksum_has_32_bytes_witness :
  iteration (Some (frame_Chunk {| Chunk := bytes_of_string "hello";
                                  Checksum := bytes_of_string "crc32:3610a686";
                                  Chunk_Id := "a" |}), None) start =
  (send Nil start, Break).
Proof.
  apply (proj2 (proj2 checksum_has_32_bytes)). cbn. discriminate.
Defined.

End ConsumerMore.

(* ================================================================== *)
(** ** The resource producer: chunks, identifiers, modes, and what the
       consumer makes of any walk *)
(* ================================================================== *)

Module ProducerMore.
Import FS Producer Stream Walked.

(** *** How a file is cut into chunks *)







(** *** Chunks of any walk *)

Lemma Read_within (reader : option os_File) (size : nat) :
  List.length (fst (fst (Read reader size))) <= size.
Proof.
  unfold Read. destruct reader as [f|]; [|cbn; lia].
  destruct size as [|size]; [cbn; lia|].
  destruct (unread f) eqn:E; [cbn; lia|].
  cbn [fst]. apply firstn_le_length.
Qed.

Lemma read_loop_within (n : nat) reader (size : nat) (id : string) :
  Forall (chunk_within size) (fst (read_loop n reader size id)).
Proof.
  revert reader; induction n as [|n IH]; intros reader; [constructor|].
  cbn [read_loop].
  pose proof (Read_within reader size) as Hr.
  destruct (Read reader size) as [[payload err] reader'].
  cbn [fst] in Hr.
  destruct ((List.length payload =? 0)%nat && is_EOF err).
  - repeat constructor.
  - specialize (IH reader').
    destruct (read_loop n reader' size id) as [frames finished].
    cbn [fst] in *. constructor; [|exact IH].
    split; [exact Hr | reflexivity].
Qed.

Lemma walkFn_within NewV4 fuel drr path d u :
  Forall (chunk_within (size drr))
         (fst (fst (walkFn NewV4 fuel drr path d u))).
Proof.
  unfold walkFn. destruct d as [d|]; [|constructor].
  destruct (Info d) as [err|m]; [constructor|].
  destruct (FS.IsDir d); [repeat constructor|].
  destruct (safeBufferSize drr <? 0)%Z; [repeat constructor|].
  pose proof (read_loop_within fuel (FS.Open d)
                (Z.to_nat (safeBufferSize drr)) (NewV4 u)) as H.
  destruct (read_loop fuel (FS.Open d) (Z.to_nat (safeBufferSize drr))
                      (NewV4 u)) as [frames finished].
  cbn [fst] in *. constructor; [exact I | exact H].
Qed.

(** X14: the chunks of any walk.  Whatever the tree, whichever calls
    fail in it and however far the walk gets, no chunk that [WalkResource]
    sends holds more than [safeBufferSize] bytes, and every chunk carries
    the SHA-256 hash of the payload it holds. *)
Theorem chunks_fit_the_buffer NewV4 fuel drr root (m : ResourceChunk) :
  In m (frames (fst (WalkResource NewV4 fuel drr root))) ->
  chunk_within (Z.to_nat (safeBufferSize drr)) m.
Proof.
  rewrite ProducerFacts.WalkResource_frames. unfold WalkDir.
  destruct root as [d|].
  - intros (p & d' & k & _ & Hm)%ProducerFacts.walkDir_In.
    pose proof (walkFn_within NewV4 fuel drr p (Some d') k) as H.
    rewrite Forall_forall in H. now apply H.
  - intros Hm.
    pose proof (walkFn_within NewV4 fuel drr (resolved drr) None 0) as H.
    rewrite Forall_forall in H. now apply H.
Qed.

Lemma chunks_fit_the_buffer_witness :
  chunk_within 2 (Producer.contents (bytes_of_string "c") "u").
Proof.
  apply (@chunks_fit_the_buffer Sample.uuid (2 + 1000) Sample.drr
                                (Some Sample.failing)).
  vm_compute. do 2 right. left. reflexivity.
Defined.

(** *** Identifiers of any walk *)

Lemma read_loop_header_ids (n : nat) reader (size : nat) (id : string) :
  header_ids (fst (read_loop n reader size id)) = [].
Proof.
  revert reader; induction n as [|n IH]; intros reader; [reflexivity|].
  cbn [read_loop].
  destruct (Read reader size) as [[payload err] reader'].
  destruct ((List.length payload =? 0)%nat && is_EOF err); [reflexivity|].
  specialize (IH reader').
  destruct (read_loop n reader' size id) as [frames finished].
  exact IH.
Qed.

Lemma counted_walkFn NewV4 fuel drr path d u :
  counted NewV4 u (walkFn NewV4 fuel drr path d u).
Proof.
  unfold counted, walkFn. destruct d as [d|].
  2:{ cbn. rewrite Nat.sub_diag. split; [lia | reflexivity]. }
  destruct (Info d) as [err|m].
  { cbn. rewrite Nat.sub_diag. split; [lia | reflexivity]. }
  assert (E : S u - u = 1) by lia.
  destruct (FS.IsDir d).
  { cbn [fst snd]. rewrite E. split; [lia | reflexivity]. }
  destruct (safeBufferSize drr <? 0)%Z.
  { cbn [fst snd]. rewrite E. split; [lia | reflexivity]. }
  pose proof (read_loop_header_ids fuel (FS.Open d)
                (Z.to_nat (safeBufferSize drr)) (NewV4 u)) as H.
  destruct (read_loop fuel (FS.Open d) (Z.to_nat (safeBufferSize drr))
                      (NewV4 u)) as [frames finished].
  cbn [fst snd] in *. rewrite E. split; [lia|].
  unfold header_ids in *. cbn [flat_map header frame_Header Payload].
  rewrite H. reflexivity.
Qed.

Lemma counted_andThen NewV4 u r k :
  counted NewV4 u r ->
  (forall v, counted NewV4 v (k v)) ->
  counted NewV4 u (andThen r k).
Proof.
  intros [Hle Hids] Hk.
  destruct r as [[out u1] [[e|]| |]]; cbn [andThen]; try (split; assumption).
  specialize (Hk u1). destruct Hk as [Hle' Hids'].
  destruct (k u1) as [[out' u2] st]. unfold counted. cbn [fst snd] in *.
  split; [lia|].
  unfold header_ids in *. rewrite flat_map_app, Hids, Hids', <- map_app.
  f_equal.
  replace (u2 - u) with ((u1 - u) + (u2 - u1)) by lia.
  rewrite seq_app. do 2 f_equal. lia.
Qed.

Lemma counted_done NewV4 u : counted NewV4 u (done u).
Proof. unfold counted, done. cbn. rewrite Nat.sub_diag. auto. Qed.

Lemma counted_walkDir NewV4 fuel drr (d : node) :
  forall path u, counted NewV4 u (walkDir NewV4 fuel drr path d u).
Proof.
  induction d as [n i o | n i dirs e IH] using ProducerFacts.node_induction;
    intros path u.
  - rewrite ProducerFacts.walkDir_File, ProducerFacts.andThen_done_r.
    apply counted_walkFn.
  - rewrite ProducerFacts.walkDir_Dir.
    apply counted_andThen; [apply counted_walkFn|].
    intros v. apply counted_andThen.
    + destruct e; [apply counted_walkFn | apply counted_done].
    + induction IH as [|d1 dirs Hd1 _ IHdirs]; intros w;
        [apply counted_done|].
      change (range NewV4 fuel drr path (d1 :: dirs) w)
        with (andThen
                (walkDir NewV4 fuel drr (filepath.Join [path; Name d1]) d1 w)
                (range NewV4 fuel drr path dirs)).
      apply counted_andThen; [apply Hd1 | exact IHdirs].
Qed.

(** X15: the identifiers of any walk.  Whatever the tree and however
    far the walk gets, the headers [WalkResource] sends carry the
    identifiers in the order they were drawn, one draw per header and none
    in between: no two headers share an identifier when no two draws do,
    not even the two headers of a directory that is visited twice. *)
Theorem every_header_has_its_own_identifier NewV4 fuel drr root :
  let ids :=
    header_ids (frames (fst (WalkResource NewV4 fuel drr root))) in
  ids = map NewV4 (seq 0 (List.length ids)) /\
  ((forall i j, NewV4 i = NewV4 j -> i = j) -> NoDup ids).
Proof.
  intros ids.
  assert (E : exists n, ids = map NewV4 (seq 0 n)).
  { unfold ids. rewrite ProducerFacts.WalkResource_frames. unfold WalkDir.
    destruct root as [d|].
    - destruct (counted_walkDir NewV4 fuel drr d (resolved drr) 0)
        as [_ H].
      eexists. exact H.
    - destruct (counted_walkFn NewV4 fuel drr (resolved drr) None 0)
        as [_ H].
      eexists. exact H. }
  destruct E as [n E]. split.
  - rewrite E at 2. now rewrite length_map, length_seq.
  - intros Hinj. rewrite E.
    apply Injective_map_NoDup; [exact Hinj | apply seq_NoDup].
Qed.

Lemma every_header_has_its_own_identifier_witness :
  NoDup (header_ids
           (frames (fst (WalkResource Sample.uuid 3 Sample.drr
                                      (Some Sample.half_listed))))).
Proof.
  apply (proj2 (@every_header_has_its_own_identifier
                  Sample.uuid 3 Sample.drr (Some Sample.half_listed))).
  exact ProducerFacts.Sample_uuid_injective.
Defined.

(** *** What the walk does not use *)

Lemma andThen_ext r (k k' : nat -> list ResourceChunk * nat * status) :
  (forall u, k u = k' u) -> andThen r k = andThen r k'.
Proof.
  intros H. destruct r as [[out u] [[e|]| |]]; cbn [andThen]; auto.
  now rewrite H.
Qed.

Lemma walkFn_with_mode NewV4 fuel drr dir mode path d u :
  walkFn NewV4 fuel (with_mode drr dir mode) path d u =
  walkFn NewV4 fuel drr path d u.
Proof. reflexivity. Qed.

Lemma walkDir_with_mode NewV4 fuel drr dir mode (d : node) :
  forall path u,
    walkDir NewV4 fuel (with_mode drr dir mode) path d u =
    walkDir NewV4 fuel drr path d u.
Proof.
  induction d as [n i o | n i dirs e IH] using ProducerFacts.node_induction;
    intros path u.
  - reflexivity.
  - rewrite !ProducerFacts.walkDir_Dir, walkFn_with_mode.
    apply andThen_ext. intros v. rewrite walkFn_with_mode.
    apply andThen_ext.
    induction IH as [|d1 dirs Hd1 _ IHdirs]; intros w; [reflexivity|].
    change (range NewV4 fuel ?r path (d1 :: dirs) w)
      with (andThen
              (walkDir NewV4 fuel r (filepath.Join [path; Name d1]) d1 w)
              (range NewV4 fuel r path dirs)).
    rewrite Hd1. apply andThen_ext. exact IHdirs.
Qed.

Lemma WalkResource_with_mode NewV4 fuel drr dir mode root :
  WalkResource NewV4 fuel (with_mode drr dir mode) root =
  WalkResource NewV4 fuel drr root.
Proof.
  unfold WalkResource, WalkDir. destruct root as [d|].
  - change (resolved (with_mode drr dir mode)) with (resolved drr).
    now rewrite walkDir_with_mode.
  - reflexivity.
Qed.

(** X16: the target mode is not used.  The resource made by
    [NewGRPCDirectoryResource] keeps the target mode of the resolved
    resource it was made from, but the walk never reads it: every header
    carries the permission bits of the entry itself.  Two resolved
    resources that differ in their target mode only yield the same
    stream. *)
Theorem walk_ignores_the_target_mode
        (R : Type) (I : Resources.ResolvedResource R)
        NewV4 fuel (safeBufferSize : Z) (a b : R) root :
  Resources.ResolvedURIOrPath a = Resources.ResolvedURIOrPath b ->
  Resources.SourcePath a = Resources.SourcePath b ->
  Resources.TargetPath a = Resources.TargetPath b ->
  Resources.TargetWorkdir a = Resources.TargetWorkdir b ->
  Resources.TargetUser a = Resources.TargetUser b ->
  WalkResource NewV4 fuel
               (Resources.NewGRPCDirectoryResource safeBufferSize a) root =
  WalkResource NewV4 fuel
               (Resources.NewGRPCDirectoryResource safeBufferSize b) root.
Proof.
  intros H1 H2 H3 H4 H5.
  assert (E : Resources.NewGRPCDirectoryResource safeBufferSize b =
              with_mode (Resources.NewGRPCDirectoryResource safeBufferSize a)
                        true (Resources.TargetMode b)).
  { unfold Resources.NewGRPCDirectoryResource, with_mode.
    cbn [isDir resolved Producer.safeBufferSize targetMode sourcePath
         targetPath targetWorkdir targetUser].
    now rewrite H1, H2, H3, H4, H5. }
  rewrite E. symmetry. apply WalkResource_with_mode.
Qed.

Lemma walk_ignores_the_target_mode_witness :
  let a := {| Consumer.contents := [];
              Consumer.isDir := true;
              Consumer.sourcePath := "/tmp/dir";
              Consumer.targetMode := 493;
              Consumer.targetPath := "/etc/app";
              Consumer.targetUser := "0:0";
              Consumer.targetWorkdir := "/work" |} in
  let b := {| Consumer.contents := [];
              Consumer.isDir := true;
              Consumer.sourcePath := "/tmp/dir";
              Consumer.targetMode := 256;
              Consumer.targetPath := "/etc/app";
              Consumer.targetUser := "0:0";
              Consumer.targetWorkdir := "/work" |} in
  WalkResource Sample.uuid 6 (Resources.NewGRPCDirectoryResource 2 a)
               (Some Sample.tree) =
  WalkResource Sample.uuid 6 (Resources.NewGRPCDirectoryResource 2 b)
               (Some Sample.tree).
Proof.
  intros a b.
  apply (@walk_ignores_the_target_mode
           _ Resources.testResolvedResource_ResolvedResource
           Sample.uuid 6 2%Z a b (Some Sample.tree));
    reflexivity.
Defined.

(** *** The mode that travels *)

Lemma Perm_bounds (m : Z) : (0 <= Perm m < 512)%Z.
Proof.
  unfold Perm. change 511%Z with (Z.ones 9).
  rewrite Z.land_ones by lia. apply Z.mod_pos_bound. reflexivity.
Qed.

(** X17: the mode that travels.  Whatever the tree and however far the
    walk gets, the mode in every header sent is made of permission bits
    only: it lies between 0 and 0o777, so the type bits and the setuid,
    setgid and sticky bits of the entry do not travel.  The consumer's
    conversion of it to a file mode changes nothing. *)
Theorem only_permission_bits_travel
        NewV4 fuel drr (d : node) (h : ResourceChunk_ResourceHeader) :
  In (frame_Header h) (frames (fst (WalkResource NewV4 fuel drr (Some d)))) ->
  (0 <= FileMode h < 512)%Z /\
  Consumer.fs_FileMode (FileMode h) = FileMode h.
Proof.
  rewrite ProducerFacts.WalkResource_frames. unfold WalkDir.
  intros (p & d' & k & _ & Hm)%ProducerFacts.walkDir_In.
  apply ProducerFacts.walkFn_Header in Hm. injection Hm as ->.
  cbn [FileMode]. pose proof (Perm_bounds (mode d')) as Hb.
  split; [exact Hb|].
  unfold Consumer.fs_FileMode. apply Z.mod_small. lia.
Qed.

Lemma only_permission_bits_travel_witness :
  let setuid_file :=
    File "su" (inr 2541%Z) (inr {| unread := []; failure := None |}) in
  let h := {| SourcePath := "src";
              TargetPath := "/etc/app";
              FileMode := 493;
              proto.IsDir := false;
              TargetUser := "0:0";
              TargetWorkdir := "/work";
              Header_Id := "u" |} in
  In (frame_Header h)
     (frames (fst (WalkResource Sample.uuid 1 Sample.drr (Some setuid_file))))
  /\ (0 <= FileMode h < 512)%Z
  /\ Consumer.fs_FileMode (FileMode h) = FileMode h.
Proof.
  intros setuid_file h.
  assert (Hin : In (frame_Header h)
                   (frames (fst (WalkResource Sample.uuid 1 Sample.drr
                                              (Some setuid_file))))).
  { vm_compute. left. reflexivity. }
  split; [exact Hin|].
  apply (@only_permission_bits_travel Sample.uuid 1 Sample.drr setuid_file h
                                      Hin).
Defined.

(** *** The header of the root *)

Lemma elements_trailing_separator (a : string) :
  filepath.elements (a ++ "/")%string = filepath.elements a ++ [""].
Proof.
  induction a as [|c a IH]; [reflexivity|].
  cbn [String.append filepath.elements].
  destruct (filepath.IsPathSeparator c).
  - now rewrite IH.
  - rewrite IH. pose proof (PathFacts.elements_not_nil a) as Hne.
    destruct (filepath.elements a); [congruence | reflexivity].
Qed.

Lemma Clean_trailing_separator (a : string) :
  a <> "" -> filepath.Clean (a ++ "/")%string = filepath.Clean a.
Proof.
  destruct a as [|c a]; [congruence|]. intros _.
  unfold filepath.Clean. cbn [String.append]. cbv zeta.
  change (String c (a ++ "/")%string) with (String c a ++ "/")%string.
  rewrite elements_trailing_separator, fold_left_app.
  reflexivity.
Qed.

Lemma Join_empty_remainder (prefix : string) :
  filepath.Join [prefix; ""] = cleaned prefix.
Proof.
  unfold cleaned. cbn [filepath.Join].
  destruct (String.eqb prefix "") eqn:E; [reflexivity|].
  apply String.eqb_neq in E.
  unfold strings.Join. cbn [String.concat].
  now apply Clean_trailing_separator.
Qed.

Lemma remainingPath_root drr : remainingPath drr (resolved drr) = "".
Proof. unfold remainingPath. now rewrite PathFacts.TrimPrefix_self. Qed.

(** X19: the header of the root.  When the root exists and its [Info]
    does not fail, the first frame of the stream is the header of the root
    itself, under the first identifier drawn.  Nothing remains of the
    root's path once the root is stripped from it, whatever the root looks
    like, so the header carries the source path and the target path of the
    resource as they are, cleaned. *)
Theorem root_header_carries_the_prefixes
        NewV4 fuel drr (d : node) (m : Z) :
  Info d = inr m ->
  exists rest,
    fst (WalkResource NewV4 fuel drr (Some d)) =
    Some (frame_Header
            {| SourcePath := cleaned (sourcePath drr);
               TargetPath := cleaned (targetPath drr);
               FileMode := Perm m;
               proto.IsDir := FS.IsDir d;
               TargetUser := commands.User_Value (targetUser drr);
               TargetWorkdir := commands.Workdir_Value (targetWorkdir drr);
               Header_Id := NewV4 0 |})
    :: rest.
Proof.
  intros Hi.
  assert (Hh : forall dir,
             header drr (resolved drr) m dir (NewV4 0) =
             frame_Header
               {| SourcePath := cleaned (sourcePath drr);
                  TargetPath := cleaned (targetPath drr);
                  FileMode := Perm m;
                  proto.IsDir := dir;
                  TargetUser := commands.User_Value (targetUser drr);
                  TargetWorkdir := commands.Workdir_Value (targetWorkdir drr);
                  Header_Id := NewV4 0 |}).
  { intros dir. unfold header.
    now rewrite remainingPath_root, !Join_empty_remainder. }
  assert (Hfn : exists frames uuids st,
             walkFn NewV4 fuel drr (resolved drr) (Some d) 0 =
             (header drr (resolved drr) m (FS.IsDir d) (NewV4 0) :: frames,
              uuids, st)).
  { unfold walkFn. rewrite Hi. destruct (FS.IsDir d).
    - do 3 eexists. reflexivity.
    - destruct (safeBufferSize drr <? 0)%Z; [do 3 eexists; reflexivity|].
      destruct (read_loop fuel (FS.Open d) (Z.to_nat (safeBufferSize drr))
                          (NewV4 0)) as [frames finished].
      do 3 eexists. reflexivity. }
  destruct Hfn as (frames & uuids & st & Hfn).
  assert (Hwalk : exists frames' uuids' st',
             walkDir NewV4 fuel drr (resolved drr) d 0 =
             (header drr (resolved drr) m (FS.IsDir d) (NewV4 0) :: frames',
              uuids', st')).
  { destruct d as [n i o | n i dirs e].
    - rewrite ProducerFacts.walkDir_File, ProducerFacts.andThen_done_r, Hfn.
      do 3 eexists. reflexivity.
    - rewrite ProducerFacts.walkDir_Dir, Hfn.
      destruct st as [[err|]| |];
        try (cbn [andThen]; do 3 eexists; reflexivity).
      rewrite ProducerFacts.andThen_Returned.
      do 3 eexists. reflexivity. }
  destruct Hwalk as (frames' & uuids' & st' & Hwalk).
  unfold WalkResource, WalkDir. rewrite Hwalk, Hh.
  destruct st' as [err| |]; cbn [fst map app]; eexists; reflexivity.
Qed.

Lemma root_header_carries_the_prefixes_witness :
  exists rest,
    fst (WalkResource Sample.uuid 3 (Sample.rooted_at "/tmp//dir/" 2)
                      (Some Sample.vanishing)) =
    Some (frame_Header
            {| SourcePath := "src";
               TargetPath := "/etc/app";
               FileMode := 493;
               proto.IsDir := true;
               TargetUser := "0:0";
               TargetWorkdir := "/work";
               Header_Id := "u" |})
    :: rest.
Proof.
  apply (@root_header_carries_the_prefixes
           Sample.uuid 3 (Sample.rooted_at "/tmp//dir/" 2) Sample.vanishing
           493%Z).
  reflexivity.
Defined.

(** *** A buffer without bytes *)

(** X22: a buffer size that is not positive.  With [safeBufferSize] 0
    every read of an open file returns no bytes and no error, also at the
    end of the file and also for an empty file: the read loop sends empty
    chunks and is never left.  With a negative size the buffer cannot be
    made: the walk function panics, after the header of the file was
    sent.  A directory is sent as ever in both cases. *)
Theorem buffer_size_must_be_positive
        NewV4 fuel drr path name (m : Z) (f : os_File) (u : nat) :
  (safeBufferSize drr <= 0)%Z ->
  walkFn NewV4 fuel drr path (Some (File name (inr m) (inr f))) u =
  (if (safeBufferSize drr <? 0)%Z
   then ([header drr path m false (NewV4 u)], S u, Panicked)
   else (header drr path m false (NewV4 u)
           :: repeat (contents [] (NewV4 u)) fuel,
         S u, Spinning)) /\
  (forall dirs e,
      walkFn NewV4 fuel drr path (Some (Dir name (inr m) dirs e)) u =
      ([header drr path m true (NewV4 u); frame_Eof (NewV4 u)],
       S u, Returned None)).
Proof.
  intros Hs. split; [|reflexivity].
  unfold walkFn. cbn [Info FS.IsDir FS.Open].
  destruct (Z.ltb_spec (safeBufferSize drr) 0) as [Hneg|Hpos];
    [reflexivity|].
  replace (safeBufferSize drr) with 0%Z by lia. cbn [Z.to_nat].
  rewrite (@ProducerFacts.read_loop_stuck fuel 0 (Some f) None);
    reflexivity.
Qed.

Lemma buffer_size_must_be_positive_witness :
  walkFn Sample.uuid 4 (Sample.rooted_at "/tmp/dir" 0) "/tmp/dir/empty"
         (Some (Sample.regular "empty" "")) 7 =
  (header (Sample.rooted_at "/tmp/dir" 0) "/tmp/dir/empty" 420 false
          (Sample.uuid 7)
     :: repeat (contents [] (Sample.uuid 7)) 4,
   8, Spinning).
Proof.
  apply (proj1 (@buffer_size_must_be_positive
                  Sample.uuid 4 (Sample.rooted_at "/tmp/dir" 0)
                  "/tmp/dir/empty" "empty" 420%Z
                  {| unread := []; failure := None |} 7
                  ltac:(cbn; lia))).
Defined.

(** *** Errors that the walk function is told of, or meets *)

Lemma range_healthy NewV4 fuel drr path (dirs : list node) :
  (0 < safeBufferSize drr)%Z ->
  forallb healthy dirs = true ->
  fold_right (fun d1 m => Nat.max (longest d1) m) 0 dirs < fuel ->
  forall u,
    range NewV4 fuel drr path dirs u =
    (entries NewV4 drr u
       (flat_map (fun d1 => visits (filepath.Join [path; Name d1]) d1) dirs),
     u + List.length
           (flat_map (fun d1 => visits (filepath.Join [path; Name d1]) d1)
                     dirs),
     Returned None).
Proof.
  intros Hs. induction dirs as [|d1 dirs IH]; intros Hh Hf u.
  - cbn. unfold done. now rewrite Nat.add_0_r.
  - cbn [forallb] in Hh. apply andb_true_iff in Hh as [Hh1 Hhs].
    cbn [fold_right] in Hf.
    change (range NewV4 fuel drr path (d1 :: dirs) u)
      with (andThen
              (walkDir NewV4 fuel drr (filepath.Join [path; Name d1]) d1 u)
              (range NewV4 fuel drr path dirs)).
    rewrite ProducerFacts.walkDir_healthy by (assumption || lia).
    rewrite ProducerFacts.andThen_Returned, IH by (assumption || lia).
    cbn [fst snd flat_map].
    rewrite ProducerFacts.entries_app, length_app, Nat.add_assoc.
    reflexivity.
Qed.

Lemma range_app NewV4 fuel drr path (a b : list node) (u : nat) :
  range NewV4 fuel drr path (a ++ b) u =
  andThen (range NewV4 fuel drr path a u) (range NewV4 fuel drr path b).
Proof.
  revert u; induction a as [|d1 a IH]; intros u.
  - cbn [app]. change (range NewV4 fuel drr path [] u) with (done u).
    now rewrite ProducerFacts.andThen_done_l.
  - change (range NewV4 fuel drr path ((d1 :: a) ++ b) u)
      with (andThen
              (walkDir NewV4 fuel drr (filepath.Join [path; Name d1]) d1 u)
              (range NewV4 fuel drr path (a ++ b))).
    change (range NewV4 fuel drr path (d1 :: a) u)
      with (andThen
              (walkDir NewV4 fuel drr (filepath.Join [path; Name d1]) d1 u)
              (range NewV4 fuel drr path a)).
    destruct (walkDir NewV4 fuel drr (filepath.Join [path; Name d1]) d1 u)
      as [[out v] [[e|]| |]]; cbn [andThen]; try reflexivity.
    rewrite IH.
    destruct (range NewV4 fuel drr path a v) as [[out1 v1] [[e1|]| |]];
      cbn [andThen]; try reflexivity.
    destruct (range NewV4 fuel drr path b v1) as [[out2 v2] st2].
    now rewrite app_assoc.
Qed.

(** X23: an entry whose [Info] fails.  The walk function returns the
    error before it has sent anything for the entry, and [WalkDir] ends
    the walk there: the entries listed after it are not visited, whatever
    they are.  The directory and the entries before it have been sent in
    full, and the nil that ends the stream follows as after a complete
    walk; the error itself goes nowhere. *)
Theorem Info_error_cuts_the_walk_short
        NewV4 fuel drr name (m : Z) (pre post : list node) (bad : node)
        (err : error) :
  (0 < safeBufferSize drr)%Z ->
  forallb healthy pre = true ->
  fold_right (fun d1 k => Nat.max (longest d1) k) 0 pre < fuel ->
  Info bad = inl err ->
  WalkResource NewV4 fuel drr
               (Some (Dir name (inr m) (pre ++ bad :: post) None)) =
  (map Some
       (entries NewV4 drr 0
          ((resolved drr, Dir name (inr m) (pre ++ bad :: post) None)
             :: flat_map
                  (fun d1 =>
                     visits (filepath.Join [resolved drr; Name d1]) d1)
                  pre))
   ++ [None],
   Returned (Some err)).
Proof.
  intros Hs Hh Hf Hi.
  unfold WalkResource, WalkDir.
  rewrite ProducerFacts.walkDir_Dir.
  assert (Hroot : walkFn NewV4 fuel drr (resolved drr)
                         (Some (Dir name (inr m) (pre ++ bad :: post) None)) 0
                  = (entry drr (resolved drr)
                           (Dir name (inr m) (pre ++ bad :: post) None)
                           (NewV4 0), 1, Returned None)) by reflexivity.
  rewrite Hroot, ProducerFacts.andThen_Returned, ProducerFacts.andThen_done_l.
  rewrite range_app, range_healthy by assumption.
  rewrite ProducerFacts.andThen_Returned.
  assert (Hbad : forall v,
             range NewV4 fuel drr (resolved drr) (bad :: post) v =
             ([], v, Returned (Some err))).
  { intros v.
    change (range NewV4 fuel drr (resolved drr) (bad :: post) v)
      with (andThen
              (walkDir NewV4 fuel drr
                       (filepath.Join [resolved drr; Name bad]) bad v)
              (range NewV4 fuel drr (resolved drr) post)).
    assert (Hw : walkDir NewV4 fuel drr
                         (filepath.Join [resolved drr; Name bad]) bad v =
                 ([], v, Returned (Some err))).
    { destruct bad as [n i o | n i dirs e]; cbn [Info] in Hi; subst i.
      - reflexivity.
      - rewrite ProducerFacts.walkDir_Dir. reflexivity. }
    now rewrite Hw. }
  rewrite Hbad. cbn [fst snd entries]. rewrite app_nil_r. reflexivity.
Qed.

Lemma Info_error_cuts_the_walk_short_witness :
  WalkResource Sample.uuid 3 Sample.drr (Some Sample.vanishing) =
  (map Some
       (entries Sample.uuid Sample.drr 0
          [("/tmp/dir", Sample.vanishing);
           ("/tmp/dir/a", Sample.regular "a" "")])
   ++ [None],
   Returned (Some (errorString "lstat b: no such file or directory"))).
Proof.
  apply (@Info_error_cuts_the_walk_short
           Sample.uuid 3 Sample.drr "dir" 493%Z [Sample.regular "a" ""]
           [Sample.regular "c" ""]
           (File "b" (inl (errorString "lstat b: no such file or directory"))
                 (inl (errorString "open b: no such file or directory")))
           (errorString "lstat b: no such file or directory")).
  - reflexivity.
  - reflexivity.
  - cbn. lia.
  - reflexivity.
Defined.

(** X24: a directory that [os.ReadDir] lists with an error.
    [WalkDir] calls the walk function a second time for the directory to
    report the error; the walk function does not look at the error it is
    given and sends the directory once more.  The stream holds two headers
    and two end markers for the directory, under two identifiers, then the
    entries that were listed, and ends as after a complete walk. *)
Theorem ReadDir_error_sends_the_directory_twice
        NewV4 fuel drr name (m : Z) (dirs : list node) (err : error) :
  (0 < safeBufferSize drr)%Z ->
  forallb healthy dirs = true ->
  fold_right (fun d1 k => Nat.max (longest d1) k) 0 dirs < fuel ->
  let d := Dir name (inr m) dirs (Some err) in
  WalkResource NewV4 fuel drr (Some d) =
  (map Some
       ([header drr (resolved drr) m true (NewV4 0); frame_Eof (NewV4 0);
         header drr (resolved drr) m true (NewV4 1); frame_Eof (NewV4 1)]
        ++ entries NewV4 drr 2
             (flat_map
                (fun d1 => visits (filepath.Join [resolved drr; Name d1]) d1)
                dirs))
   ++ [None],
   Returned None).
Proof.
  intros Hs Hh Hf d.
  unfold WalkResource, WalkDir, d.
  rewrite ProducerFacts.walkDir_Dir.
  assert (Hfn : forall v,
             walkFn NewV4 fuel drr (resolved drr)
                    (Some (Dir name (inr m) dirs (Some err))) v =
             ([header drr (resolved drr) m true (NewV4 v);
               frame_Eof (NewV4 v)], S v, Returned None)) by reflexivity.
  rewrite !Hfn, ProducerFacts.andThen_Returned, Hfn.
  rewrite ProducerFacts.andThen_Returned, range_healthy by assumption.
  cbn [fst snd]. reflexivity.
Qed.

Lemma ReadDir_error_sends_the_directory_twice_witness :
  WalkResource Sample.uuid 3 Sample.drr (Some Sample.half_listed) =
  (map Some
       ([header Sample.drr "/tmp/dir" 493 true "u"; frame_Eof "u";
         header Sample.drr "/tmp/dir" 493 true "uu"; frame_Eof "uu"]
        ++ entries Sample.uuid Sample.drr 2
             [("/tmp/dir/a", Sample.regular "a" "")])
   ++ [None],
   Returned None).
Proof.
  apply (@ReadDir_error_sends_the_directory_twice
           Sample.uuid 3 Sample.drr "dir" 493%Z [Sample.regular "a" ""]
           (errorString "readdirent: input/output error")).
  - reflexivity.
  - reflexivity.
  - cbn. lia.
Defined.

End ProducerMore.

(* ================================================================== *)
(** ** Any walk, received *)
(* ================================================================== *)

Module PipelineMore.
Import Stream Accept.

Lemma well_formed_app (open : bool) (a b : list ResourceChunk) :
  well_formed open a = true ->
  (forall open', well_formed open' b = true) ->
  well_formed open (a ++ b) = true.
Proof.
  intros Ha Hb. revert open Ha.
  induction a as [|m a IH]; intros open Ha; cbn [app]; [apply Hb|].
  cbn [well_formed] in *.
  destruct (Payload m) as [[h|c|e]|].
  - now apply IH.
  - apply andb_true_iff in Ha as [-> Ha]. now apply IH.
  - apply andb_true_iff in Ha as [-> Ha]. now apply IH.
  - now apply IH.
Qed.

Lemma read_loop_well_formed (n : nat) reader (size : nat) (id : string) :
  well_formed true (fst (Producer.read_loop n reader size id)) = true.
Proof.
  revert reader; induction n as [|n IH]; intros reader; [reflexivity|].
  cbn [Producer.read_loop].
  destruct (FS.Read reader size) as [[payload err] reader'].
  destruct ((List.length payload =? 0)%nat && Producer.is_EOF err);
    [reflexivity|].
  specialize (IH reader').
  destruct (Producer.read_loop n reader' size id) as [frames finished].
  cbn [fst well_formed Producer.contents frame_Chunk Payload Chunk Checksum
       andb] in *.
  now rewrite bytes_eqb_refl.
Qed.

Lemma walkFn_well_formed NewV4 fuel drr path d u (open : bool) :
  well_formed open
    (fst (fst (Producer.walkFn NewV4 fuel drr path d u))) = true.
Proof.
  unfold Producer.walkFn. destruct d as [d|]; [|reflexivity].
  destruct (FS.Info d) as [err|m]; [reflexivity|].
  destruct (FS.IsDir d); [reflexivity|].
  destruct (Producer.safeBufferSize drr <? 0)%Z; [reflexivity|].
  pose proof (read_loop_well_formed fuel (FS.Open d)
                (Z.to_nat (Producer.safeBufferSize drr)) (NewV4 u)) as H.
  destruct (Producer.read_loop fuel (FS.Open d)
              (Z.to_nat (Producer.safeBufferSize drr)) (NewV4 u))
    as [frames finished].
  exact H.
Qed.

Lemma andThen_well_formed r k :
  (forall open, well_formed open (fst (fst r)) = true) ->
  (forall u open, well_formed open (fst (fst (k u))) = true) ->
  forall open,
    well_formed open (fst (fst (Producer.andThen r k))) = true.
Proof.
  intros Hr Hk open. destruct r as [[out u] [[e|]| |]]; cbn; try apply Hr.
  specialize (Hk u). destruct (k u) as [[out' u'] st]. cbn in *.
  apply well_formed_app; [apply Hr | exact Hk].
Qed.

Lemma walkDir_well_formed NewV4 fuel drr (d : FS.node) :
  forall path u open,
    well_formed open
      (fst (fst (Producer.walkDir NewV4 fuel drr path d u))) = true.
Proof.
  induction d as [n i o | n i dirs e IH] using ProducerFacts.node_induction;
    intros path u open.
  - rewrite ProducerFacts.walkDir_File, ProducerFacts.andThen_done_r.
    apply walkFn_well_formed.
  - rewrite ProducerFacts.walkDir_Dir.
    apply andThen_well_formed; [intros; apply walkFn_well_formed|].
    intros u1 open1. apply andThen_well_formed.
    + intros open2. destruct e; [apply walkFn_well_formed | reflexivity].
    + clear u1 open1. induction IH as [|d1 dirs Hd1 _ IHdirs];
        intros u2 open2; [reflexivity|].
      change (Producer.range NewV4 fuel drr path (d1 :: dirs) u2)
        with (Producer.andThen
                (Producer.walkDir NewV4 fuel drr
                                  (filepath.Join [path; FS.Name d1]) d1 u2)
                (Producer.range NewV4 fuel drr path dirs)).
      apply andThen_well_formed; [intros; apply Hd1 | exact IHdirs].
Qed.

(** X18: any walk, received.  Whenever [WalkDir] returns, with or
    without an error, the stream [WalkResource] has sent is one the
    consumer reads to its end: the consumer sends no error and no nil,
    does not panic, sends one non-nil pointer per end marker and closes
    its channel.  A walk that an error of [Info] cut short therefore
    reaches the receiver like a complete one, with fewer entries. *)
Theorem every_finished_walk_is_received_without_error
        NewV4 fuel drr root (err : option error) :
  snd (Producer.WalkResource NewV4 fuel drr root) = Producer.Returned err ->
  let sent := fst (Producer.WalkResource NewV4 fuel drr root) in
  let o := Consumer.goroutine (wire sent) in
  Consumer.closed o = true /\
  List.length (Consumer.results o) =
    List.length (filter is_Eof (frames sent)) /\
  Forall (is_pointer (List.length (Consumer.store o))) (Consumer.results o).
Proof.
  intros Hst sent o.
  assert (Hwf : well_formed false (frames sent) = true).
  { unfold sent. rewrite ProducerFacts.WalkResource_frames.
    unfold Producer.WalkDir.
    destruct root; [apply walkDir_well_formed | apply walkFn_well_formed]. }
  assert (Hw : wire sent = Consumer.delivered (frames sent)).
  { unfold sent in *. unfold Producer.WalkResource in *.
    destruct (Producer.WalkDir NewV4 fuel drr root) as [[out u] [e| |]];
      cbn [fst snd] in *; try discriminate.
    rewrite PipelineFacts.wire_sent. unfold frames. rewrite flat_map_app.
    fold (frames (map Some out)). rewrite ProducerFacts.frames_sent.
    cbn. now rewrite app_nil_r. }
  destruct (@ConsumerMore.iterations_well_formed
              (frames sent) Consumer.start Hwf)
    as (s' & Hit & (more & Hs & Hl & Hp) & Ho); [discriminate|].
  assert (E : o = {| Consumer.results := Consumer.sent s';
                     Consumer.store := Consumer.objects s';
                     Consumer.closed := true |}).
  { unfold o. rewrite Hw. apply (@ConsumerMore.goroutine_of _ s' Consumer.Break).
    now rewrite ConsumerFacts.iterations_app, Hit. }
  rewrite E. cbn [Consumer.closed Consumer.results Consumer.store].
  cbn [Consumer.start Consumer.sent] in Hs. rewrite Hs. cbn [app].
  repeat split; assumption.
Qed.

Lemma every_finished_walk_is_received_without_error_witness :
  let sent := fst (Producer.WalkResource Sample.uuid 3 Sample.drr
                                         (Some Sample.vanishing)) in
  let o := Consumer.goroutine (wire sent) in
  Consumer.closed o = true /\
  List.length (Consumer.results o) =
    List.length (filter is_Eof (frames sent)) /\
  Forall (is_pointer (List.length (Consumer.store o))) (Consumer.results o).
Proof.
  apply (@every_finished_walk_is_received_without_error
           Sample.uuid 3 Sample.drr (Some Sample.vanishing)
           (Some (errorString "lstat b: no such file or directory"))).
  reflexivity.
Defined.

End PipelineMore.

(* ================================================================== *)
(** ** Starting the test server, and the contents of the large file *)
(* ================================================================== *)

Module StartupFacts.
Import Session Startup.

Lemma loop_start_channels (events : list event)
      (p p' : testGRPCServerProvider) :
  loop events p = Next p' \/ loop events p = Exit p' ->
  chanReady p' = chanReady p /\ chanFailed p' = chanFailed p.
Proof.
  revert p; induction events as [|e events IH]; intros p; cbn [loop].
  - intros [H|H]; [|discriminate]. now injection H as <-.
  - destruct (loop_select e p) as [q|q| |] eqn:E.
    + intros H. destruct (IH _ H) as [-> ->].
      destruct e; cbn [loop_select] in E; try discriminate.
      * destruct (chanFinished p); discriminate.
      * destruct (is_empty stdErrLine); injection E as <-; auto.
      * destruct (is_empty stdOutLine); injection E as <-; auto.
      * destruct (chanAborted p); [discriminate|]. injection E as <-; auto.
      * destruct (success p); injection E as <-; auto.
      * destruct (chanAborted p); [|discriminate]. cbn in E.
        destruct (isAbortedClosed p); injection E as <-; auto.
    + intros [H|H]; [discriminate|]. injection H as <-.
      apply SessionMore.loop_select_Exit in E as (_ & _ & ->). auto.
    + intros [H|H]; discriminate.
    + intros [H|H]; discriminate.
Qed.

(** X20: ready or failed.  After [Start], exactly one case of the
    [select] of [MustStartTestGRPCServer] can be taken, and it stays that
    way whatever the loop does afterwards: the ready case when the server
    reported ready, the failed case, with the error of the server, when it
    reported a failure.  After a failure the loop was never started: no
    line was logged and no stop was requested. *)
Theorem start_signals_ready_or_failed
        (first : event) (events : list event) (p : testGRPCServerProvider) :
  Start first events = Next p \/ Start first events = Exit p ->
  (first = ReadyNotify /\ MustStart_select p = [startReady]) \/
  (exists err,
      first = FailedNotify err /\
      MustStart_select p = [startErr err] /\
      Start first events = Exit p /\
      stops p = 0 /\ ConsumedStdout p = [] /\ ConsumedStderr p = [] /\
      Succeeded p = false /\ Aborted_ p = None).
Proof.
  destruct first; try (intros [H|H]; discriminate).
  - intros H. left. split; [reflexivity|].
    rewrite SessionFacts.Start_ReadyNotify in H.
    destruct (loop_start_channels _ _ H) as [Hr Hf].
    unfold MustStart_select. now rewrite Hr, Hf.
  - intros [H|H]; [discriminate|]. right. exists err.
    cbn in H. injection H as <-. repeat split.
Qed.

Lemma start_signals_ready_or_failed_witness :
  exists p,
    Start (FailedNotify (errorString "listen: address in use"))
          [OnStdout "never seen"; OnSuccess] = Exit p /\
    MustStart_select p = [startErr (errorString "listen: address in use")] /\
    stops p = 0.
Proof.
  eexists. split; [reflexivity|].
  destruct (@start_signals_ready_or_failed
              (FailedNotify (errorString "listen: address in use"))
              [OnStdout "never seen"; OnSuccess] _ (or_intror eq_refl))
    as [[H _]|(err & H & Hs & _ & H0 & _)]; [discriminate|].
  injection H as <-. split; [exact Hs | exact H0].
Defined.

End StartupFacts.

Module TestDataFacts.
Import TestData.

Lemma index_remainder (b : byte) :
  exists x, index alphanum (remainder b) = Some x /\
            In x (list_byte_of_string alphanum).
Proof.
  unfold index.
  assert (H : remainder b < List.length (list_byte_of_string alphanum)).
  { unfold remainder.
    change (List.length (list_byte_of_string alphanum)) with 62.
    change (Nat.modulo (String.length alphanum) 256) with 62.
    apply Nat.mod_upper_bound. discriminate. }
  apply nth_error_Some in H.
  destruct (nth_error (list_byte_of_string alphanum) (remainder b)) as [x|]
    eqn:E; [|congruence].
  exists x. split; [reflexivity|]. eapply nth_error_In. exact E.
Qed.

(** X21: the contents of the large file.  Whatever bytes the random
    source delivers, [getLargeFileContent] does not index outside the
    alphabet: it returns as many bytes as it was given, every one of them
    a digit or a letter of the alphabet. *)
Theorem large_file_content_is_alphanumeric (random : bytes) :
  exists out,
    getLargeFileContent random = Some out /\
    List.length out = List.length random /\
    Forall (fun x => In x (list_byte_of_string alphanum)) out.
Proof.
  unfold getLargeFileContent.
  induction random as [|b random (out & E & Hl & Ha)].
  - exists []. repeat split. constructor.
  - destruct (index_remainder b) as (x & Ex & Hx).
    exists (x :: out). cbn [replace]. rewrite Ex, E.
    repeat split; [cbn; now rewrite Hl | now constructor].
Qed.

End TestDataFacts.
